(** * trend-spotting: the feed fetcher, the loader and the sort layer of App.tsx

    A shallow embedding of the non-presentational logic of [src/App.tsx]:
    [fetchFeed] (relay fallback chain), [loadData] (live data or bundled
    samples), [sortTrends] and [toggleSort].

    Conventions.
    - A JavaScript string is a Rocq [string] holding its UTF-8 bytes.  Every
      well-formed string has exactly one such image; a search for an ASCII
      needle and the percent-encoding of [encodeURIComponent] act on the
      bytes exactly as they act on the text.
    - A promise is represented by the way it settles ([Settled]); every
      request is taken to settle.
    - A handler runs without interruption up to its next [await]; other
      handlers may run while it is suspended ([loadDataAmong]).
    - Code that threads effects is written in a small state-and-exception
      monad [M]; [try]/[catch]/[finally] are combinators of that monad. *)

From Stdlib Require Import ZArith Ascii String Bool.
From stdpp Require Import gmap strings list sorting.


(** ** Values thrown and settled promises *)

(** [new Error(msg)] and the [TypeError] a failed [fetch] rejects with. *)
Inductive JsError : Type :=
  | Error (message : string)
  | TypeError (message : string).

Definition message_of (e : JsError) : string :=
  match e with Error m => m | TypeError m => m end.

Inductive Settled (A : Type) : Type :=
  | Fulfilled (value : A)
  | Rejected (reason : JsError).
Arguments Fulfilled {A} value.
Arguments Rejected {A} reason.

(** ** The state-and-exception monad *)

Module Eff.

Definition M (S A : Type) : Type := S -> Settled A * S.

Definition ret {S A} (a : A) : M S A := fun s => (Fulfilled a, s).

Definition throw {S A} (e : JsError) : M S A := fun s => (Rejected e, s).

Definition bind {S A B} (m : M S A) (k : A -> M S B) : M S B :=
  fun s =>
    match m s with
    | (Fulfilled a, s') => k a s'
    | (Rejected e, s') => (Rejected e, s')
    end.

(** [await p] for an already settled promise [p]. *)
Definition await {S A} (p : Settled A) : M S A := fun s => (p, s).

(** [try { body } catch (err) { handler }] *)
Definition try_catch {S A} (body : M S A) (handler : JsError -> M S A) : M S A :=
  fun s =>
    match body s with
    | (Fulfilled a, s') => (Fulfilled a, s')
    | (Rejected e, s') => handler e s'
    end.

(** [try { body } finally { fin }]: [fin] runs on both exits; an exception
    of [fin] itself replaces the completion of [body]. *)
Definition try_finally {S A} (body : M S A) (fin : M S unit) : M S A :=
  fun s =>
    match body s with
    | (r, s') =>
        match fin s' with
        | (Fulfilled _, s'') => (r, s'')
        | (Rejected e, s'') => (Rejected e, s'')
        end
    end.

Definition modify {S} (f : S -> S) : M S unit := fun s => (Fulfilled tt, f s).

End Eff.
Import Eff.

Notation "x <- m ;; k" := (bind m (fun x => k))
  (at level 100, m at next level, right associativity).
Notation "m ;;; k" := (bind m (fun _ => k))
  (at level 100, right associativity).

(** ** Strings: [String.prototype.includes] and [encodeURIComponent] *)

(** [text.includes(needle)]: does [needle] occur in [text] at some offset? *)
Fixpoint includes (text needle : string) : bool :=
  String.prefix needle text ||
  match text with
  | EmptyString => false
  | String _ rest => includes rest needle
  end.

(** The propositional reading of [includes]. *)
Definition Contains (text needle : string) : Prop :=
  exists before after, text = before +:+ needle +:+ after.

(** Characters [encodeURIComponent] leaves alone:
    [A-Z a-z 0-9 - _ . ! ~ * ' ( )]. *)
Definition uriUnreserved (c : ascii) : bool :=
  let n := nat_of_ascii c in
  (65 <=? n) && (n <=? 90) || (97 <=? n) && (n <=? 122) ||
  (48 <=? n) && (n <=? 57) ||
  (n =? 45) || (n =? 95) || (n =? 46) || (n =? 33) ||
  (n =? 126) || (n =? 42) || (n =? 39) || (n =? 40) || (n =? 41).

Definition hexDigit (n : nat) : ascii :=
  if n <? 10 then ascii_of_nat (48 + n) else ascii_of_nat (55 + n).

Definition percentEncode (c : ascii) : string :=
  let n := nat_of_ascii c in
  String "%" (String (hexDigit (n / 16)) (String (hexDigit (n mod 16)) EmptyString)).

Fixpoint encodeURIComponent (s : string) : string :=
  match s with
  | EmptyString => EmptyString
  | String c rest =>
      if uriUnreserved c then String c (encodeURIComponent rest)
      else percentEncode c +:+ encodeURIComponent rest
  end.

(** ** The network seen by one call of [fetchFeed] *)

(** A [Response]: its [ok] flag and the way [response.text()] settles. *)
Record Response : Type := mkResponse {
  ok : bool;
  text : Settled string
}.

(** What one call observes and does: requests and console warnings. *)
Inductive Event : Type :=
  | EvFetch (url : string)
  | EvWarn (label : string) (err : JsError).

(** [script k] is how the [k]-th request issued by the call settles. *)
Record Net : Type := mkNet {
  script : nat -> Settled Response;
  sent : nat;
  trace : list Event
}.

Definition startNet (sc : nat -> Settled Response) : Net :=
  {| script := sc; sent := 0; trace := [] |}.

(** [await fetch(url)] *)
Definition fetch (url : string) : M Net Response :=
  fun n =>
    (script n (sent n),
     {| script := script n; sent := S (sent n); trace := trace n ++ [EvFetch url] |}).

(** [console.warn(label, err)] *)
Definition console_warn (label : string) (err : JsError) : M Net unit :=
  modify (fun n =>
    {| script := script n; sent := sent n; trace := trace n ++ [EvWarn label err] |}).

(** ** [fetchFeed] (App.tsx, lines 18-51) *)

Definition RSS_URL (geo : string) : string :=
  "https://trends.google.com/trending/rss?geo=" +:+ geo.

Definition proxyGenerators : list (string -> string) :=
  [ (fun url => "https://api.allorigins.win/raw?url=" +:+ encodeURIComponent url);
    (fun url => "https://corsproxy.io/?" +:+ encodeURIComponent url);
    (fun url => "https://api.codetabs.com/v1/proxy?quest=" +:+ encodeURIComponent url) ].

(** The body of the [for] loop: [Some text] stands for [return text],
    [None] for falling through to the next iteration. *)
Definition attempt (geo : string) (generateUrl : string -> string)
  : M Net (option string) :=
  try_catch
    (let proxyUrl := generateUrl (RSS_URL geo) in
     response <- fetch proxyUrl ;;
     if ok response then
       text <- await (text response) ;;
       if includes text "<rss" || includes text "<?xml"
       then ret (Some text)
       else ret None
     else ret None)
    (fun err =>
       console_warn ("Proxy attempt failed for " +:+ geo +:+ ":") err ;;;
       ret None).

(** [for (const generateUrl of gens) { ... }] *)
Fixpoint relayLoop (geo : string) (gens : list (string -> string))
  : M Net (option string) :=
  match gens with
  | [] => ret None
  | generateUrl :: rest =>
      r <- attempt geo generateUrl ;;
      match r with
      | Some text => ret (Some text)
      | None => relayLoop geo rest
      end
  end.

Definition fetchFeed (geo : string) : M Net string :=
  r <- relayLoop geo proxyGenerators ;;
  match r with
  | Some text => ret text
  | None =>
      throw (Error ("Unable to reach Google Trends for " +:+ geo
                    +:+ " via any available proxy."))
  end.

(** [fetchFeed(geo)] run from its first request against a script. *)
Definition runFetchFeed (geo : string) (sc : nat -> Settled Response)
  : Settled string * Net :=
  fetchFeed geo (startNet sc).

(** The URLs a call has requested, in the order of the requests. *)
Definition requests (tr : list Event) : list string :=
  omap (fun ev => match ev with EvFetch url => Some url | EvWarn _ _ => None end) tr.

(** The acceptance test in words: an "ok" status and a body that contains
    the opener of an RSS root tag or of an XML declaration. *)
Definition Accepted (settlement : Settled Response) (body : string) : Prop :=
  exists response,
    settlement = Fulfilled response /\ ok response = true /\
    text response = Fulfilled body /\
    (Contains body "<rss" \/ Contains body "<?xml").

(** The URLs of the relays for a geography, in the order of the generators. *)
Definition relayUrls (geo : string) (gens : list (string -> string)) : list string :=
  map (fun generateUrl => generateUrl (RSS_URL geo)) gens.

(** The error [fetchFeed] throws after the last relay. *)
Definition unreachable (geo : string) : JsError :=
  Error ("Unable to reach Google Trends for " +:+ geo +:+ " via any available proxy.").

(** The exception, if any, that the [try] block of one iteration raises: a
    rejected [fetch], or a rejected [text()] after an "ok" status. *)
Definition thrown (settlement : Settled Response) : option JsError :=
  match settlement with
  | Rejected e => Some e
  | Fulfilled response =>
      if ok response then
        match text response with
        | Rejected e => Some e
        | Fulfilled _ => None
        end
      else None
  end.

(** What one iteration is expected to leave in the trace: its request, and
    the warning of the [catch] block when the [try] block threw. *)
Definition attemptEvents (geo url : string) (settlement : Settled Response) : list Event :=
  EvFetch url ::
  match thrown settlement with
  | Some e => [EvWarn ("Proxy attempt failed for " +:+ geo +:+ ":") e]
  | None => []
  end.

(** ** Data model (types.ts) *)

Record NewsItem : Type := mkNewsItem {
  news_title : string;
  news_url : string;
  news_source : string;
  imageUrl : option string
}.

Record TrendItem : Type := mkTrendItem {
  id : string;
  title : string;
  traffic : string;
  pubDate : string;
  mainPicture : option string;
  pictureSource : option string;
  newsItems : list NewsItem
}.

Inductive SortOrder : Type := asc | desc.

(** The [useState] cells of the component. *)
Record AppState : Type := mkAppState {
  bdTrends : list TrendItem;
  ukTrends : list TrendItem;
  lastUpdated : string;
  loading : bool;
  isLive : bool;
  errorMessage : option string;
  sortOrder : SortOrder
}.

Definition initialState : AppState :=
  {| bdTrends := []; ukTrends := []; lastUpdated := ""; loading := true;
     isLive := false; errorMessage := None; sortOrder := desc |}.

Definition setBdTrends (v : list TrendItem) : M AppState unit :=
  modify (fun st =>
    {| bdTrends := v; ukTrends := ukTrends st; lastUpdated := lastUpdated st;
       loading := loading st; isLive := isLive st;
       errorMessage := errorMessage st; sortOrder := sortOrder st |}).

Definition setUkTrends (v : list TrendItem) : M AppState unit :=
  modify (fun st =>
    {| bdTrends := bdTrends st; ukTrends := v; lastUpdated := lastUpdated st;
       loading := loading st; isLive := isLive st;
       errorMessage := errorMessage st; sortOrder := sortOrder st |}).

Definition setLastUpdated (v : string) : M AppState unit :=
  modify (fun st =>
    {| bdTrends := bdTrends st; ukTrends := ukTrends st; lastUpdated := v;
       loading := loading st; isLive := isLive st;
       errorMessage := errorMessage st; sortOrder := sortOrder st |}).

Definition setLoading (v : bool) : M AppState unit :=
  modify (fun st =>
    {| bdTrends := bdTrends st; ukTrends := ukTrends st;
       lastUpdated := lastUpdated st; loading := v; isLive := isLive st;
       errorMessage := errorMessage st; sortOrder := sortOrder st |}).

Definition setIsLive (v : bool) : M AppState unit :=
  modify (fun st =>
    {| bdTrends := bdTrends st; ukTrends := ukTrends st;
       lastUpdated := lastUpdated st; loading := loading st; isLive := v;
       errorMessage := errorMessage st; sortOrder := sortOrder st |}).

Definition setErrorMessage (v : option string) : M AppState unit :=
  modify (fun st =>
    {| bdTrends := bdTrends st; ukTrends := ukTrends st;
       lastUpdated := lastUpdated st; loading := loading st;
       isLive := isLive st; errorMessage := v; sortOrder := sortOrder st |}).

(** [setSortOrder(prev => f(prev))] *)
Definition setSortOrder (f : SortOrder -> SortOrder) : M AppState unit :=
  modify (fun st =>
    {| bdTrends := bdTrends st; ukTrends := ukTrends st;
       lastUpdated := lastUpdated st; loading := loading st;
       isLive := isLive st; errorMessage := errorMessage st;
       sortOrder := f (sortOrder st) |}).

(** [Promise.all([p, q])]: fulfilled with both values when both are, rejected
    when one is.  When both reject, the reason is that of whichever settled
    first; it only reaches [console.warn], so the first leg's is taken. *)
Definition Promise_all {A B} (p : Settled A) (q : Settled B) : Settled (A * B) :=
  match p, q with
  | Fulfilled a, Fulfilled b => Fulfilled (a, b)
  | Rejected e, _ => Rejected e
  | _, Rejected e => Rejected e
  end.

(** [Array.prototype.sort(comparefn)] on the contents of an array.  The
    language requires the sort to be stable, and for a consistent comparator
    the stably sorted arrangement is unique; insertion computes it. *)
Fixpoint sortedInsert {A} (comparefn : A -> A -> Z) (x : A) (l : list A) : list A :=
  match l with
  | [] => [x]
  | y :: rest =>
      if (comparefn x y <=? 0)%Z then x :: y :: rest
      else y :: sortedInsert comparefn x rest
  end.

Definition Array_sort {A} (comparefn : A -> A -> Z) (l : list A) : list A :=
  foldr (sortedInsert comparefn) [] l.

(** [v || 0] for a time value [v]: [NaN] (here [None]) and [0] are falsy. *)
Definition orZero (v : option Z) : Z :=
  match v with
  | Some t => if (t =? 0)%Z then 0%Z else t
  | None => 0%Z
  end.

(** Arrays as objects: a store of arrays addressed by reference. *)
Abbreviation ref := nat.
Abbreviation Heap := (gmap nat (list TrendItem)).

(** [[...items]]: a new array with the elements of [items]. *)
Definition spread (items : ref) : M Heap ref :=
  fun h =>
    match h !! items with
    | Some elems => let copy := fresh (dom h) in (Fulfilled copy, <[copy := elems]> h)
    | None => (Rejected (TypeError "items is not iterable"), h)
    end.

(** [arr.sort(comparefn)]: sorts [arr] in place and returns [arr] itself. *)
Definition sort_in_place (comparefn : TrendItem -> TrendItem -> Z) (arr : ref)
  : M Heap ref :=
  fun h =>
    match h !! arr with
    | Some elems => (Fulfilled arr, <[arr := Array_sort comparefn elems]> h)
    | None => (Rejected (TypeError "sort is not a function"), h)
    end.

(** ** A concrete environment for the examples *)

Module Demo.

Definition item (name date : string) : TrendItem :=
  {| id := name; title := name; traffic := "1000+"; pubDate := date;
     mainPicture := None; pictureSource := None; newsItems := [] |}.

(** A stand-in parser: one entry when the document has an [<item>] tag. *)
Definition parse (xml : string) : list TrendItem :=
  if includes xml "<item>" then [item xml "2024-01-01T00:00:00.000Z"] else [].

Definition bdSample : string := "<rss><item>BD sample</item></rss>".
Definition ukSample : string := "<rss><item>UK sample</item></rss>".

(** [new Date(s).getTime()] on the date strings used below (ISO format, so
    the values are fixed by the language); [None] is [NaN]. *)
Definition getTime (s : string) : option Z :=
  if String.eqb s "2024-01-01T00:00:00.000Z" then Some 1704067200000%Z
  else if String.eqb s "2025-01-01T00:00:00.000Z" then Some 1735689600000%Z
  else if String.eqb s "1970-01-01T00:00:00.000Z" then Some 0%Z
  else if String.eqb s "1960-01-01T00:00:00.000Z" then Some (-315619200000)%Z
  else None.

Definition undated : TrendItem := item "undated" "not a date".
Definition preEpoch : TrendItem := item "moon race" "1960-01-01T00:00:00.000Z".
Definition year2024 : TrendItem := item "election" "2024-01-01T00:00:00.000Z".
Definition year2025 : TrendItem := item "new year" "2025-01-01T00:00:00.000Z".

Definition epochDay : TrendItem := item "epoch" "1970-01-01T00:00:00.000Z".

Definition liveFeed : string := "<?xml version='1.0'?><rss><item>live</item></rss>".

Definition okXml (body : string) : Settled Response :=
  Fulfilled {| ok := true; text := Fulfilled body |}.
Definition http500 : Settled Response :=
  Fulfilled {| ok := false; text := Fulfilled "Internal Server Error" |}.
Definition offline : Settled Response :=
  Rejected (TypeError "Failed to fetch").

(** Scripts: what the successive requests of one call receive. *)
Definition allDown : nat -> Settled Response := fun _ => offline.
Definition secondWorks (body : string) : nat -> Settled Response :=
  fun k => match k with 1 => okXml body | _ => http500 end.
Definition firstWorks (body : string) : nat -> Settled Response :=
  fun _ => okXml body.


(** The same, with two items of the second column tied at the epoch. *)
Definition loadedTied : AppState :=
  {| bdTrends := [year2024; preEpoch; year2025];
     ukTrends := [undated; epochDay];
     lastUpdated := "10:00:00"; loading := false; isLive := true;
     errorMessage := None; sortOrder := desc |}.

End Demo.

(** ** The component *)

Section App.

(** [parseTrendsXML] of [./utils/xmlParser], which is not among the
    sources, taken as a parameter: by its contract it never throws, and it
    returns the empty sequence for a document without entries. *)
Variable parseTrendsXML : string -> list TrendItem.

(** The two bundled documents of [./data/sampleFeeds]. *)
Variables BANGLADESH_XML UK_XML : string.

(** [new Date(s).getTime()]: the time value in milliseconds, an integer,
    or [None] for [NaN] when [s] is not a date. *)
Variable getTime : string -> option Z.

(** *** [loadData] (App.tsx, lines 54-90)

    An invocation runs in two uninterrupted parts, with the suspension at
    the [await] of line 60 between them.  [legBD] and [legGB] script the
    requests of the two concurrent [fetchFeed] calls: whatever way their
    requests interleave, each call sees one sequence of settlements.  [now]
    is what [new Date().toLocaleTimeString()] returns when it is evaluated.
    The [console.warn] of the handler does not touch the state. *)

(** Lines 55-56: from the call to the [await]. *)
Definition loadDataEntry : M AppState unit :=
  setLoading true ;;;
  setErrorMessage None.

(** Lines 58-89: from the settlement of [Promise.all] to the end. *)
Definition loadDataResume (legBD legGB : nat -> Settled Response) (now : string)
  : M AppState unit :=
  try_finally
    (try_catch
       (xmls <- await (Promise_all (fst (runFetchFeed "BD" legBD))
                                   (fst (runFetchFeed "GB" legGB))) ;;
        let bdXml := fst xmls in
        let ukXml := snd xmls in
        let parsedBd := parseTrendsXML bdXml in
        let parsedUk := parseTrendsXML ukXml in
        if (0 <? length parsedBd) && (0 <? length parsedUk) then
          setBdTrends parsedBd ;;;
          setUkTrends parsedUk ;;;
          setIsLive true ;;;
          setLastUpdated now
        else
          throw (Error "Parsed data was empty"))
       (fun error =>
          setBdTrends (parseTrendsXML BANGLADESH_XML) ;;;
          setUkTrends (parseTrendsXML UK_XML) ;;;
          setIsLive false ;;;
          setLastUpdated now ;;;
          setErrorMessage
            (Some "Live connection failed. Displaying cached data. Please try again later.")))
    (setLoading false).

(** An invocation during which nothing else touches the state. *)
Definition loadData (legBD legGB : nat -> Settled Response) (now : string)
  : M AppState unit :=
  loadDataEntry ;;;
  loadDataResume legBD legGB now.

(** *** [sortTrends] (App.tsx, lines 106-112) *)

(** [new Date(item.pubDate).getTime() || 0] *)
Definition timestamp (item : TrendItem) : Z := orZero (getTime (pubDate item)).

(** The comparator.  Time values are integers of magnitude at most
    8.64e15, so the floating-point difference has the sign of the exact
    one, and [sort] looks at the sign only. *)
Definition compareFn (order : SortOrder) (a b : TrendItem) : Z :=
  let dateA := timestamp a in
  let dateB := timestamp b in
  match order with
  | desc => (dateB - dateA)%Z
  | asc => (dateA - dateB)%Z
  end.

(** On the contents of the arrays: [[...items].sort(compareFn)]. *)
Definition sortTrends (order : SortOrder) (items : list TrendItem) : list TrendItem :=
  Array_sort (compareFn order) items.

(** On the arrays themselves: the copy is allocated, then sorted in place. *)
Definition sortTrends_ref (order : SortOrder) (items : ref) : M Heap ref :=
  copy <- spread items ;;
  sort_in_place (compareFn order) copy.

(** [useMemo(() => sortTrends(bdTrends), ...)] and its twin. *)
Definition sortedBdTrends (st : AppState) : list TrendItem :=
  sortTrends (sortOrder st) (bdTrends st).
Definition sortedUkTrends (st : AppState) : list TrendItem :=
  sortTrends (sortOrder st) (ukTrends st).

(** *** [toggleSort] (App.tsx, lines 117-119) *)
Definition toggle (prev : SortOrder) : SortOrder :=
  match prev with desc => asc | asc => desc end.

Definition toggleSort : M AppState unit := setSortOrder toggle.

(** *** Invocations that overlap

    Nothing serialises the invocations of [loadData]: the interval timer
    (lines 97-99) starts one whatever the state, so between the two parts of
    an invocation other handlers may run.  Each of them runs to its own next
    suspension without interruption. *)
Inductive Meanwhile : Type :=
  | OtherEnters
      (* another invocation of [loadData] runs lines 55-56 *)
  | OtherSettles (legBD legGB : nat -> Settled Response) (now : string)
      (* another invocation resumes after its [await] and runs to its end *)
  | SortToggled.
      (* the sort button is pressed *)

Definition meanwhile (ev : Meanwhile) : M AppState unit :=
  match ev with
  | OtherEnters => loadDataEntry
  | OtherSettles legBD legGB now => loadDataResume legBD legGB now
  | SortToggled => toggleSort
  end.

Fixpoint runMeanwhile (evs : list Meanwhile) : M AppState unit :=
  match evs with
  | [] => ret tt
  | ev :: rest => meanwhile ev ;;; runMeanwhile rest
  end.

(** An invocation of [loadData] with the handlers [between] running while it
    is suspended. *)
Definition loadDataAmong (between : list Meanwhile)
    (legBD legGB : nat -> Settled Response) (now : string) : M AppState unit :=
  loadDataEntry ;;;
  runMeanwhile between ;;;
  loadDataResume legBD legGB now.

(** Does an invocation with these legs take the success branch (line 68)? *)
Definition settlesLive (legBD legGB : nat -> Settled Response) : bool :=
  match Promise_all (fst (runFetchFeed "BD" legBD)) (fst (runFetchFeed "GB" legGB)) with
  | Fulfilled (bdXml, ukXml) =>
      (0 <? length (parseTrendsXML bdXml)) && (0 <? length (parseTrendsXML ukXml))
  | Rejected _ => false
  end.

(** Is the handler the completion of an invocation that falls back? *)
Definition fallsBack (ev : Meanwhile) : bool :=
  match ev with
  | OtherSettles legBD legGB _ => negb (settlesLive legBD legGB)
  | OtherEnters | SortToggled => false
  end.

(** The presses of the sort button among the handlers. *)
Fixpoint presses (evs : list Meanwhile) : nat :=
  match evs with
  | [] => 0
  | SortToggled :: rest => S (presses rest)
  | _ :: rest => presses rest
  end.

(** *** What the component renders (App.tsx, lines 120-220)

    The parts of the markup that depend on the state; the rest is fixed. *)
Record View : Type := mkView {
  statusTitle : string;         (* title of the status pill *)
  statusText : string;          (* 'Live Feed' or 'Offline Mode' *)
  sortButtonTitle : string;
  sortButtonText : string;
  refreshDisabled : bool;       (* disabled={loading} *)
  refreshText : string;
  errorBanner : option string;  (* {errorMessage && (...)} *)
  bdColumn : list TrendItem;    (* items of the Bangladesh FeedColumn *)
  ukColumn : list TrendItem;    (* items of the United Kingdom FeedColumn *)
  footerSynced : string;
  footerStatus : string
}.

(** [errorMessage && (<div>...{errorMessage}...</div>)]: [null] and the empty
    string are falsy and render nothing. *)
Definition renderBanner (errorMessage : option string) : option string :=
  match errorMessage with
  | Some msg => if String.eqb msg "" then None else Some msg
  | None => None
  end.

Definition render (st : AppState) : View :=
  {| statusTitle :=
       if isLive st then "Connected to Google Trends Live Feed"
       else "Connection to Live Feed failed. Showing cached data.";
     statusText := if isLive st then "Live Feed" else "Offline Mode";
     sortButtonTitle :=
       "Sort by Date: " +:+
       match sortOrder st with desc => "Newest First" | asc => "Oldest First" end;
     sortButtonText := match sortOrder st with desc => "Newest" | asc => "Oldest" end;
     refreshDisabled := loading st;
     refreshText := if loading st then "Syncing..." else "Refresh";
     errorBanner := renderBanner (errorMessage st);
     bdColumn := sortedBdTrends st;
     ukColumn := sortedUkTrends st;
     footerSynced := "Last synced: " +:+ lastUpdated st;
     footerStatus := if isLive st then "Live" else "Offline" |}.

End App.

(** What may run while an invocation of [loadData] is suspended. *)
Module Overlap.

(** Another invocation enters and succeeds, and the sort button is pressed. *)
Definition quiet : list Meanwhile :=
  [ OtherEnters; SortToggled;
    OtherSettles (Demo.firstWorks Demo.liveFeed) (Demo.firstWorks Demo.liveFeed) "10:00:05" ].


End Overlap.

(** ** The refresh effect (App.tsx, lines 92-103)

    The browser side of the effect: the table of active interval timers
    (identifier to delay in milliseconds) and the number of [loadData] calls
    started so far; a call is started and not awaited. *)
Record Browser : Type := mkBrowser {
  intervals : gmap nat Z;
  loadsStarted : nat
}.

(** [loadData()] without [await] *)
Definition startLoad : M Browser unit :=
  modify (fun b => {| intervals := intervals b; loadsStarted := S (loadsStarted b) |}).

(** [setInterval(callback, ms)]: registers a timer under an identifier that
    is not in use and returns the identifier. *)
Definition setInterval (ms : Z) : M Browser nat :=
  fun b =>
    let intervalId := fresh (dom (intervals b)) in
    (Fulfilled intervalId,
     {| intervals := <[intervalId := ms]> (intervals b); loadsStarted := loadsStarted b |}).

(** [clearInterval(id)]: removes the timer; an unknown identifier is ignored. *)
Definition clearInterval (intervalId : nat) : M Browser unit :=
  modify (fun b =>
    {| intervals := delete intervalId (intervals b); loadsStarted := loadsStarted b |}).

(** The body of [useEffect]: load at once, refresh every 15 minutes, and
    return the cleanup that cancels the timer. *)
Definition refreshEffect : M Browser (M Browser unit) :=
  startLoad ;;;
  intervalId <- setInterval (15 * 60 * 1000)%Z ;;
  ret (clearInterval intervalId).

(** The timer [intervalId] of the effect elapses: its callback,
    [() => { loadData(); }], runs if the timer is still registered. *)
Definition intervalElapses (intervalId : nat) : M Browser unit :=
  fun b =>
    match intervals b !! intervalId with
    | Some _ => startLoad b
    | None => (Fulfilled tt, b)
    end.

(** * Properties *)

(** ** Substring search *)

Lemma prefix_append (p s : string) :
  String.prefix p s = true <-> exists rest, s = p +:+ rest.
Proof.
  revert s. induction p as [|c p IH]; intros s.
  - split; [intros _; exists s; reflexivity | intros _; now destruct s].
  - destruct s as [|d s]; simpl.
    + split; [discriminate | intros [rest H]; discriminate].
    + destruct (ascii_dec c d) as [->|Hne].
      * rewrite IH. split; intros [rest H]; exists rest.
        -- now rewrite H.
        -- now injection H.
      * split; [discriminate | intros [rest H]; injection H; congruence].
Qed.

Lemma includes_unfold (text needle : string) :
  includes text needle =
  String.prefix needle text ||
  match text with
  | EmptyString => false
  | String _ rest => includes rest needle
  end.
Proof. destruct text; reflexivity. Qed.

Lemma includes_Contains (text needle : string) :
  includes text needle = true <-> Contains text needle.
Proof.
  split.
  - induction text as [|c text IH]; rewrite includes_unfold, orb_true_iff.
    + intros [H|H]; [|discriminate].
      apply prefix_append in H as [rest H]. exists EmptyString, rest. exact H.
    + intros [H|H].
      * apply prefix_append in H as [rest H]. exists EmptyString, rest. exact H.
      * destruct (IH H) as (before & after & ->).
        exists (String c before), after. reflexivity.
  - intros (before & after & ->).
    induction before as [|c before IH]; rewrite includes_unfold, orb_true_iff.
    + left. apply prefix_append. exists after. reflexivity.
    + right. exact IH.
Qed.

(** ** The relay loop *)

Lemma requests_app (a b : list Event) : requests (a ++ b) = requests a ++ requests b.
Proof. apply omap_app. Qed.

Lemma Accepted_functional settlement b1 b2 :
  Accepted settlement b1 -> Accepted settlement b2 -> b1 = b2.
Proof.
  intros (r1 & E1 & _ & T1 & _) (r2 & E2 & _ & T2 & _).
  rewrite E1 in E2. injection E2 as <-. rewrite T1 in T2. now injection T2.
Qed.

(** One iteration: exactly one request goes out, and the iteration returns
    the body when the settlement is accepted and falls through otherwise. *)
Lemma attempt_run geo generateUrl n :
  let n' := snd (attempt geo generateUrl n) in
  script n' = script n /\ sent n' = S (sent n) /\
  requests (trace n') = requests (trace n) ++ [generateUrl (RSS_URL geo)] /\
  ((exists body, Accepted (script n (sent n)) body /\
                 fst (attempt geo generateUrl n) = Fulfilled (Some body)) \/
   ((forall body, ~ Accepted (script n (sent n)) body) /\
    fst (attempt geo generateUrl n) = Fulfilled None)).
Proof.
  unfold attempt, try_catch, bind, fetch, await, console_warn, modify, ret.
  cbn [snd fst].
  destruct (script n (sent n)) as [[isOk [body|e]]|e] eqn:E; cbn;
    try destruct isOk; cbn; rewrite ?requests_app; cbn; rewrite ?app_nil_r.
  - destruct (includes body "<rss" || includes body "<?xml") eqn:I; cbn;
      rewrite ?requests_app; cbn; (split; [reflexivity|split; [reflexivity|split; [reflexivity|]]]).
    + left. exists body. split; [|reflexivity].
      exists {| ok := true; text := Fulfilled body |}.
      apply orb_true_iff in I. rewrite !includes_Contains in I. auto.
    + right. split; [|reflexivity].
      intros b (r & Er & _ & Tr & C). injection Er as <-. cbn in Tr.
      injection Tr as <-. apply orb_false_iff in I as [I1 I2].
      rewrite <- !includes_Contains in C. destruct C; congruence.
  - repeat (split; [reflexivity|]). right. split; [|reflexivity].
    intros b (r & Er & Ok & _). injection Er as <-. discriminate.
  - repeat (split; [reflexivity|]). right. split; [|reflexivity].
    intros b (r & Er & _ & Tr & _). injection Er as <-. discriminate.
  - repeat (split; [reflexivity|]). right. split; [|reflexivity].
    intros b (r & Er & Ok & _). injection Er as <-. discriminate.
  - repeat (split; [reflexivity|]). right. split; [|reflexivity].
    intros b (r & Er & _). discriminate.
Qed.

Lemma relayLoop_cons geo g rest n :
  relayLoop geo (g :: rest) n =
  match attempt geo g n with
  | (Fulfilled (Some body), n1) => (Fulfilled (Some body), n1)
  | (Fulfilled None, n1) => relayLoop geo rest n1
  | (Rejected e, n1) => (Rejected e, n1)
  end.
Proof.
  cbn [relayLoop]. unfold bind.
  destruct (attempt geo g n) as [[[body|]|e] n1]; reflexivity.
Qed.

(** The whole loop from any state: either some relay is the first one whose
    settlement is accepted, and the loop stops right there, or none is and
    every generator has been asked once. *)
Lemma relayLoop_run geo gens : forall n,
  let r := relayLoop geo gens n in
  script (snd r) = script n /\
  ((exists k body,
      k < length gens /\
      Accepted (script n (sent n + k)) body /\
      (forall j b, j < k -> ~ Accepted (script n (sent n + j)) b) /\
      fst r = Fulfilled (Some body) /\
      sent (snd r) = sent n + S k /\
      requests (trace (snd r)) = requests (trace n) ++ take (S k) (relayUrls geo gens)) \/
   ((forall j b, j < length gens -> ~ Accepted (script n (sent n + j)) b) /\
    fst r = Fulfilled None /\
    sent (snd r) = sent n + length gens /\
    requests (trace (snd r)) = requests (trace n) ++ relayUrls geo gens)).
Proof.
  induction gens as [|g rest IH]; intros n; cbn zeta.
  - split; [reflexivity|]. right. cbn. rewrite app_nil_r, Nat.add_0_r.
    repeat split. intros j b Hj. lia.
  - pose proof (attempt_run geo g n) as (Hsc & Hsent & Hreq & Hcase).
    rewrite relayLoop_cons.
    destruct (attempt geo g n) as [res n1] eqn:E. cbn [fst snd] in *.
    destruct Hcase as [(body & Hacc & ->) | (Hno & ->)].
    + split; [exact Hsc|]. left. exists 0, body. cbn.
      rewrite Nat.add_0_r. repeat split; auto; try lia.
    + specialize (IH n1). cbn zeta in IH. destruct IH as (Hsc1 & IH).
      split; [congruence|].
      rewrite Hsc, Hsent, Hreq in IH.
      destruct IH as [(k & body & Hk & Hacc & Hfirst & Hres & Hs & Hr) | (Hnone & Hres & Hs & Hr)].
      * left. exists (S k), body. cbn [length].
        replace (sent n + S k) with (S (sent n) + k) by lia.
        repeat split; auto; try lia.
        -- intros j b Hj. destruct j as [|j].
           ++ rewrite Nat.add_0_r. apply Hno.
           ++ replace (sent n + S j) with (S (sent n) + j) by lia.
              apply Hfirst. lia.
        -- rewrite Hr, <- app_assoc. reflexivity.
      * right. cbn [length]. repeat split; auto; try lia.
        -- intros j b Hj. destruct j as [|j].
           ++ rewrite Nat.add_0_r. apply Hno.
           ++ replace (sent n + S j) with (S (sent n) + j) by lia.
              apply Hnone. lia.
        -- rewrite Hr, <- app_assoc. reflexivity.
Qed.

Lemma relayUrls_NoDup geo : NoDup (relayUrls geo proxyGenerators).
Proof.
  unfold relayUrls, proxyGenerators. cbn [map].
  repeat (apply NoDup_cons; split); try apply NoDup_nil_2;
    rewrite ?not_elem_of_cons; repeat split;
    try apply not_elem_of_nil; cbn; discriminate.
Qed.

Lemma unreachable_names_geo geo : Contains (message_of (unreachable geo)) geo.
Proof.
  exists "Unable to reach Google Trends for ", " via any available proxy.".
  reflexivity.
Qed.

Lemma fetchFeed_run geo n :
  fetchFeed geo n =
  match relayLoop geo proxyGenerators n with
  | (Fulfilled (Some body), n') => (Fulfilled body, n')
  | (Fulfilled None, n') => (Rejected (unreachable geo), n')
  | (Rejected e, n') => (Rejected e, n')
  end.
Proof.
  unfold fetchFeed, bind.
  destruct (relayLoop geo proxyGenerators n) as [[[body|]|e] n']; reflexivity.
Qed.

(** C3. For every geography code and every sequence of relay settlements,
    [fetchFeed] asks the relays in the fixed order of the generators, each at
    most once (the requests are an initial segment of the three distinct relay
    URLs), resolves with the body of the first relay whose response is
    accepted, stopping there, and, when no relay is accepted, has asked every
    relay once and rejects with the error that names the geography. *)
Theorem fetchFeed_first_accepted_relay (geo : string) (sc : nat -> Settled Response) :
  let run := runFetchFeed geo sc in
  let urls := relayUrls geo proxyGenerators in
  NoDup urls /\
  (forall k body,
     k < length proxyGenerators ->
     Accepted (sc k) body ->
     (forall j b, j < k -> ~ Accepted (sc j) b) ->
     fst run = Fulfilled body /\ requests (trace (snd run)) = take (S k) urls) /\
  ((forall k b, k < length proxyGenerators -> ~ Accepted (sc k) b) ->
     fst run = Rejected (unreachable geo) /\ requests (trace (snd run)) = urls) /\
  ((exists body, fst run = Fulfilled body) \/ fst run = Rejected (unreachable geo)) /\
  Contains (message_of (unreachable geo)) geo.
Proof.
  cbn zeta. unfold runFetchFeed. rewrite fetchFeed_run.
  pose proof (relayLoop_run geo proxyGenerators (startNet sc)) as (_ & Hrun).
  cbn zeta in Hrun. cbn [startNet script sent trace requests omap] in Hrun.
  destruct (relayLoop geo proxyGenerators (startNet sc)) as [res n'].
  cbn [fst snd] in *.
  split; [apply relayUrls_NoDup|].
  destruct Hrun as [(k0 & body0 & Hk0 & Hacc0 & Hfirst0 & -> & _ & Hreq)
                   | (Hnone & -> & _ & Hreq)]; cbn [fst snd].
  - split; [|split; [|split]].
    + intros k body Hk Hacc Hfirst.
      assert (k = k0) as ->.
      { destruct (Nat.lt_trichotomy k k0) as [Hlt|[Heq|Hgt]]; [|exact Heq|].
        - exfalso. exact (Hfirst0 k body Hlt Hacc).
        - exfalso. exact (Hfirst k0 body0 Hgt Hacc0). }
      split; [|exact Hreq].
      f_equal. exact (Accepted_functional _ _ _ Hacc0 Hacc).
    + intros Hno. exfalso. exact (Hno k0 body0 Hk0 Hacc0).
    + left. exists body0. reflexivity.
    + apply unreachable_names_geo.
  - split; [|split; [|split]].
    + intros k body Hk Hacc _. exfalso. exact (Hnone k body Hk Hacc).
    + intros _. split; [reflexivity | exact Hreq].
    + right. reflexivity.
    + apply unreachable_names_geo.
Qed.

(** C4. The loop body returns a body text exactly when the settlement of its
    request is accepted: an "ok" status and a body that contains ["<rss"] or
    ["<?xml"].  On acceptance the loop returns that body at once; on any other
    settlement the iteration falls through and the loop goes on with the
    remaining generators.  Either way the iteration has issued one request. *)
Theorem attempt_accepts_ok_with_marker
    (geo : string) (generateUrl : string -> string)
    (rest : list (string -> string)) (n : Net) :
  let settlement := script n (sent n) in
  let n' := snd (attempt geo generateUrl n) in
  (forall body,
     fst (attempt geo generateUrl n) = Fulfilled (Some body) <->
     Accepted settlement body) /\
  (forall body,
     Accepted settlement body ->
     relayLoop geo (generateUrl :: rest) n = (Fulfilled (Some body), n')) /\
  ((forall body, ~ Accepted settlement body) ->
     fst (attempt geo generateUrl n) = Fulfilled None /\
     relayLoop geo (generateUrl :: rest) n = relayLoop geo rest n') /\
  sent n' = S (sent n) /\
  requests (trace n') = requests (trace n) ++ [generateUrl (RSS_URL geo)].
Proof.
  cbn zeta.
  pose proof (attempt_run geo generateUrl n) as (_ & Hsent & Hreq & Hcase).
  rewrite relayLoop_cons.
  destruct (attempt geo generateUrl n) as [res n1]. cbn [fst snd] in *.
  split; [|split; [|split; [|split]]]; try assumption.
  - intros body. destruct Hcase as [(body0 & Hacc & ->) | (Hno & ->)].
    + split.
      * intros [= <-]. exact Hacc.
      * intros Hacc'. do 2 f_equal. exact (Accepted_functional _ _ _ Hacc Hacc').
    + split; [discriminate | intros Hacc; exfalso; exact (Hno body Hacc)].
  - intros body Hacc'. destruct Hcase as [(body0 & Hacc & ->) | (Hno & ->)].
    + do 3 f_equal. exact (Accepted_functional _ _ _ Hacc Hacc').
    + exfalso. exact (Hno body Hacc').
  - intros Hno'. destruct Hcase as [(body0 & Hacc & ->) | (Hno & ->)].
    + exfalso. exact (Hno' body0 Hacc).
    + split; reflexivity.
Qed.

(** ** The loader *)

Section LoaderProperties.

Variable parseTrendsXML : string -> list TrendItem.
Variables BANGLADESH_XML UK_XML : string.

Lemma Promise_all_Fulfilled {A B} (p : Settled A) (q : Settled B) a b :
  Promise_all p q = Fulfilled (a, b) <-> p = Fulfilled a /\ q = Fulfilled b.
Proof.
  destruct p, q; cbn; split; try discriminate; try (intros [? ?]; discriminate).
  - intros [= -> ->]. split; reflexivity.
  - intros [[= ->] [= ->]]. reflexivity.
Qed.

(** Every run of [loadData] returns normally, in one of two states. *)
Lemma loadData_run legBD legGB now st :
  loadData parseTrendsXML BANGLADESH_XML UK_XML legBD legGB now st =
  (Fulfilled tt,
   let fallback :=
     {| bdTrends := parseTrendsXML BANGLADESH_XML;
        ukTrends := parseTrendsXML UK_XML;
        lastUpdated := now; loading := false; isLive := false;
        errorMessage :=
          Some "Live connection failed. Displaying cached data. Please try again later.";
        sortOrder := sortOrder st |} in
   match Promise_all (fst (runFetchFeed "BD" legBD)) (fst (runFetchFeed "GB" legGB)) with
   | Fulfilled (bdXml, ukXml) =>
       if (0 <? length (parseTrendsXML bdXml)) && (0 <? length (parseTrendsXML ukXml))
       then {| bdTrends := parseTrendsXML bdXml; ukTrends := parseTrendsXML ukXml;
               lastUpdated := now; loading := false; isLive := true;
               errorMessage := None; sortOrder := sortOrder st |}
       else fallback
   | Rejected _ => fallback
   end).
Proof.
  unfold loadData, loadDataEntry, loadDataResume.
  generalize (Promise_all (fst (runFetchFeed "BD" legBD)) (fst (runFetchFeed "GB" legGB))).
  intros [[bdXml ukXml]|e];
    unfold bind, try_finally, try_catch, await, throw,
      setLoading, setErrorMessage, setBdTrends, setUkTrends, setIsLive,
      setLastUpdated, modify; cbn.
  - destruct (parseTrendsXML bdXml), (parseTrendsXML ukXml); reflexivity.
  - reflexivity.
Qed.

(** The second part of an invocation, from whatever state it finds: the
    success branch does not write [errorMessage]. *)
Lemma loadDataResume_run legBD legGB now s :
  loadDataResume parseTrendsXML BANGLADESH_XML UK_XML legBD legGB now s =
  (Fulfilled tt,
   let fallback :=
     {| bdTrends := parseTrendsXML BANGLADESH_XML;
        ukTrends := parseTrendsXML UK_XML;
        lastUpdated := now; loading := false; isLive := false;
        errorMessage :=
          Some "Live connection failed. Displaying cached data. Please try again later.";
        sortOrder := sortOrder s |} in
   match Promise_all (fst (runFetchFeed "BD" legBD)) (fst (runFetchFeed "GB" legGB)) with
   | Fulfilled (bdXml, ukXml) =>
       if (0 <? length (parseTrendsXML bdXml)) && (0 <? length (parseTrendsXML ukXml))
       then {| bdTrends := parseTrendsXML bdXml; ukTrends := parseTrendsXML ukXml;
               lastUpdated := now; loading := false; isLive := true;
               errorMessage := errorMessage s; sortOrder := sortOrder s |}
       else fallback
   | Rejected _ => fallback
   end).
Proof.
  unfold loadDataResume.
  generalize (Promise_all (fst (runFetchFeed "BD" legBD)) (fst (runFetchFeed "GB" legGB))).
  intros [[bdXml ukXml]|e];
    unfold bind, try_finally, try_catch, await, throw,
      setLoading, setErrorMessage, setBdTrends, setUkTrends, setIsLive,
      setLastUpdated, modify; cbn.
  - destruct (parseTrendsXML bdXml), (parseTrendsXML ukXml); reflexivity.
  - reflexivity.
Qed.

(** What one handler does to the banner text and to the sort order. *)
Lemma meanwhile_run ev s :
  exists s',
    meanwhile parseTrendsXML BANGLADESH_XML UK_XML ev s = (Fulfilled tt, s') /\
    (fallsBack parseTrendsXML ev = false ->
     errorMessage s' = None \/ errorMessage s' = errorMessage s) /\
    (errorMessage s' = None \/ errorMessage s' = errorMessage s \/
     errorMessage s' =
       Some "Live connection failed. Displaying cached data. Please try again later.") /\
    sortOrder s' =
      match ev with SortToggled => toggle (sortOrder s) | _ => sortOrder s end.
Proof.
  destruct ev as [|legBD legGB now|]; cbn [meanwhile fallsBack].
  - eexists. split; [reflexivity|]. cbn. auto.
  - rewrite loadDataResume_run. eexists. split; [reflexivity|]. cbn zeta.
    unfold settlesLive.
    destruct (Promise_all _ _) as [[bdXml ukXml]|e];
      [destruct ((0 <? length (parseTrendsXML bdXml)) && (0 <? length (parseTrendsXML ukXml)))|];
      cbn; repeat split; auto; discriminate.
  - eexists. split; [reflexivity|]. cbn. auto.
Qed.

Lemma runMeanwhile_run evs : forall s,
  exists s',
    runMeanwhile parseTrendsXML BANGLADESH_XML UK_XML evs s = (Fulfilled tt, s') /\
    (errorMessage s = None ->
     Forall (fun ev => fallsBack parseTrendsXML ev = false) evs ->
     errorMessage s' = None) /\
    (errorMessage s = None \/
     errorMessage s =
       Some "Live connection failed. Displaying cached data. Please try again later." ->
     errorMessage s' = None \/
     errorMessage s' =
       Some "Live connection failed. Displaying cached data. Please try again later.") /\
    sortOrder s' = Nat.iter (presses evs) toggle (sortOrder s).
Proof.
  induction evs as [|ev evs IH]; intros s.
  - exists s. cbn. auto.
  - destruct (meanwhile_run ev s) as (s1 & Hev & Hquiet & Hmsg & Hsort).
    destruct (IH s1) as (s' & Hrest & Hnone & Hany & Hsort').
    exists s'. cbn [runMeanwhile]. unfold bind at 1. rewrite Hev, Hrest.
    split; [reflexivity|]. split; [|split].
    + intros Hs Hall. apply Forall_cons in Hall as [Hq Hall].
      apply Hnone; [|exact Hall]. destruct (Hquiet Hq) as [H|H]; congruence.
    + intros Hs. apply Hany.
      destruct Hmsg as [H|[H|H]]; [auto| |auto].
      rewrite H. exact Hs.
    + rewrite Hsort', Hsort. destruct ev; cbn [presses]; try reflexivity.
      rewrite Nat.iter_succ_r. reflexivity.
Qed.

Lemma nonempty_length {A} (l : list A) : (0 <? length l) = true <-> l <> [].
Proof.
  destruct l; cbn; split; congruence || discriminate || reflexivity.
Qed.

(** C1. When a geography fetch rejects, or both resolve and one of the two
    parsed sequences is empty, [loadData] ends with both item sequences set
    to the parses of the two bundled sample documents, [isLive] false,
    [lastUpdated] the current time and [errorMessage] the fixed notice; no
    part of the live result is kept. *)
Theorem loadData_fallback legBD legGB now st :
  ((exists e, fst (runFetchFeed "BD" legBD) = Rejected e) \/
   (exists e, fst (runFetchFeed "GB" legGB) = Rejected e) \/
   (exists bdXml ukXml,
      fst (runFetchFeed "BD" legBD) = Fulfilled bdXml /\
      fst (runFetchFeed "GB" legGB) = Fulfilled ukXml /\
      (parseTrendsXML bdXml = [] \/ parseTrendsXML ukXml = []))) ->
  loadData parseTrendsXML BANGLADESH_XML UK_XML legBD legGB now st =
  (Fulfilled tt,
   {| bdTrends := parseTrendsXML BANGLADESH_XML;
      ukTrends := parseTrendsXML UK_XML;
      lastUpdated := now; loading := false; isLive := false;
      errorMessage :=
        Some "Live connection failed. Displaying cached data. Please try again later.";
      sortOrder := sortOrder st |}).
Proof.
  intros H. rewrite loadData_run. cbn zeta. f_equal.
  destruct (Promise_all _ _) as [[bdXml ukXml]|e] eqn:E; [|reflexivity].
  apply Promise_all_Fulfilled in E as [Ebd Euk].
  destruct H as [[e He]|[[e He]|(b & u & Hb & Hu & Hempty)]]; try congruence.
  rewrite Ebd in Hb. rewrite Euk in Hu. injection Hb as <-. injection Hu as <-.
  destruct Hempty as [-> | ->]; cbn; rewrite ?andb_false_r; reflexivity.
Qed.

Lemma loadDataAmong_run between legBD legGB now st :
  exists settled,
    runMeanwhile parseTrendsXML BANGLADESH_XML UK_XML between (snd (loadDataEntry st)) =
      (Fulfilled tt, settled) /\
    loadDataAmong parseTrendsXML BANGLADESH_XML UK_XML between legBD legGB now st =
      loadDataResume parseTrendsXML BANGLADESH_XML UK_XML legBD legGB now settled /\
    (Forall (fun ev => fallsBack parseTrendsXML ev = false) between ->
     errorMessage settled = None) /\
    (errorMessage settled = None \/
     errorMessage settled =
       Some "Live connection failed. Displaying cached data. Please try again later.") /\
    sortOrder settled = Nat.iter (presses between) toggle (sortOrder st).
Proof.
  destruct (runMeanwhile_run between (snd (loadDataEntry st)))
    as (settled & Hrun & Hnone & Hany & Hsort).
  exists settled. split; [exact Hrun|]. split; [|split; [|split]].
  - unfold loadDataAmong, bind.
    change (loadDataEntry st) with (Fulfilled tt, snd (loadDataEntry st)) at 1.
    cbv beta iota. rewrite Hrun. reflexivity.
  - apply Hnone. reflexivity.
  - apply Hany. left. reflexivity.
  - exact Hsort.
Qed.


(** C8. Every invocation of [loadData] returns normally (no exception
    leaves it) with [loading] false, and the state it leaves holds either
    the live data of both geographies or the fallback data of both. *)
Theorem loadData_always_settles legBD legGB now st :
  exists st',
    loadData parseTrendsXML BANGLADESH_XML UK_XML legBD legGB now st = (Fulfilled tt, st') /\
    loading st' = false /\
    ((isLive st' = true /\
      exists bdXml ukXml,
        fst (runFetchFeed "BD" legBD) = Fulfilled bdXml /\
        fst (runFetchFeed "GB" legGB) = Fulfilled ukXml /\
        bdTrends st' = parseTrendsXML bdXml /\ bdTrends st' <> [] /\
        ukTrends st' = parseTrendsXML ukXml /\ ukTrends st' <> []) \/
     (isLive st' = false /\
      bdTrends st' = parseTrendsXML BANGLADESH_XML /\
      ukTrends st' = parseTrendsXML UK_XML)).
Proof.
  rewrite loadData_run. cbn zeta. eexists. split; [reflexivity|].
  destruct (Promise_all _ _) as [[bdXml ukXml]|e] eqn:E.
  - apply Promise_all_Fulfilled in E as [Ebd Euk].
    destruct (0 <? length (parseTrendsXML bdXml)) eqn:Nbd;
      destruct (0 <? length (parseTrendsXML ukXml)) eqn:Nuk; cbn;
      (split; [reflexivity|]); try (right; repeat split; reflexivity).
    left. split; [reflexivity|]. exists bdXml, ukXml.
    apply nonempty_length in Nbd, Nuk. repeat split; assumption.
  - cbn. split; [reflexivity|]. right. repeat split; reflexivity.
Qed.


End LoaderProperties.

(** ** Sorting with a consistent comparator *)

Section ConsistentComparator.

Context {A : Type} (comparefn : A -> A -> Z).

Lemma sortedInsert_Permutation x l : sortedInsert comparefn x l ≡ₚ x :: l.
Proof.
  induction l as [|y l IH]; cbn; [reflexivity|].
  destruct (comparefn x y <=? 0)%Z; [reflexivity|].
  rewrite IH. apply perm_swap.
Qed.

Lemma Array_sort_Permutation l : Array_sort comparefn l ≡ₚ l.
Proof.
  induction l as [|x l IH]; cbn; [reflexivity|].
  rewrite sortedInsert_Permutation. now constructor.
Qed.

Hypothesis comparefn_total :
  forall x y, (comparefn x y <= 0)%Z \/ (comparefn y x <= 0)%Z.
Hypothesis comparefn_trans :
  forall x y z, (comparefn x y <= 0)%Z -> (comparefn y z <= 0)%Z -> (comparefn x z <= 0)%Z.

Let before (x y : A) : Prop := (comparefn x y <= 0)%Z.

Lemma sortedInsert_sorted x l :
  StronglySorted before l -> StronglySorted before (sortedInsert comparefn x l).
Proof.
  induction 1 as [|y l Hl IH Hy]; cbn.
  - repeat constructor.
  - destruct (Z.leb_spec (comparefn x y) 0) as [Hxy|Hxy].
    + constructor; [now constructor|].
      constructor; [exact Hxy|].
      eapply Forall_impl; [exact Hy|]. intros z Hz. exact (comparefn_trans _ _ _ Hxy Hz).
    + constructor; [exact IH|].
      rewrite sortedInsert_Permutation. constructor; [|exact Hy].
      destruct (comparefn_total x y) as [H|H]; [lia|exact H].
Qed.

Lemma Array_sort_sorted l : StronglySorted before (Array_sort comparefn l).
Proof.
  induction l as [|x l IH]; cbn; [constructor|]. now apply sortedInsert_sorted.
Qed.

End ConsistentComparator.

(** Insertion is stable: within a class of items that the comparator does not
    order strictly, the new item stays in front. *)
Lemma filter_sortedInsert {A} (comparefn : A -> A -> Z)
    (P : A -> Prop) `{forall x, Decision (P x)} (x : A) (l : list A) :
  (forall y, P x -> P y -> (comparefn x y <= 0)%Z) ->
  filter P (sortedInsert comparefn x l) = filter P (x :: l).
Proof.
  intros Hclass. induction l as [|y l IH]; cbn [sortedInsert]; [reflexivity|].
  destruct (Z.leb_spec (comparefn x y) 0) as [Hxy|Hxy]; [reflexivity|].
  rewrite (filter_cons _ y), IH, !(filter_cons _ x), (filter_cons _ y).
  destruct (decide (P x)) as [Px|Px], (decide (P y)) as [Py|Py]; try reflexivity.
  specialize (Hclass y Px Py). lia.
Qed.

Lemma StronglySorted_weaken {A} (R S : relation A) (l : list A) :
  (forall a b, R a b -> S a b) -> StronglySorted R l -> StronglySorted S l.
Proof.
  intros HRS. induction 1 as [|x l Hl IH Hx]; constructor; [exact IH|].
  eapply Forall_impl; [exact Hx|]. intros b. apply HRS.
Qed.

Lemma StronglySorted_map {A B} (f : A -> B) (R : relation B) (l : list A) :
  StronglySorted (fun a b => R (f a) (f b)) l -> StronglySorted R (map f l).
Proof.
  induction 1 as [|x l Hl IH Hx]; cbn; constructor; [exact IH|].
  apply List.Forall_map. exact Hx.
Qed.

Lemma StronglySorted_rev {A} (R : relation A) (l : list A) :
  StronglySorted R l -> StronglySorted (flip R) (rev l).
Proof.
  induction 1 as [|x l Hl IH Hx]; cbn; [constructor|].
  apply StronglySorted_app_2; [|exact IH|repeat constructor].
  intros y z Hy Hz. apply list_elem_of_singleton in Hz as ->.
  rewrite Forall_forall in Hx. apply Hx.
  apply list_elem_of_In, in_rev, list_elem_of_In in Hy. exact Hy.
Qed.

Lemma NoDup_map_inj_on {A B} (f : A -> B) (l : list A) x y :
  NoDup (map f l) -> x ∈ l -> y ∈ l -> f x = f y -> x = y.
Proof.
  induction l as [|a l IH]; cbn; intros Hnd Hx Hy Hf.
  - now apply elem_of_nil in Hx.
  - apply NoDup_cons in Hnd as [Ha Hnd].
    assert (forall z, z ∈ l -> f z <> f a) as Hfresh.
    { intros z Hz Heq. apply Ha. rewrite <- Heq.
      apply list_elem_of_In, in_map, list_elem_of_In, Hz. }
    apply elem_of_cons in Hx as [->|Hx]; apply elem_of_cons in Hy as [->|Hy].
    + reflexivity.
    + exfalso. exact (Hfresh y Hy (eq_sym Hf)).
    + exfalso. exact (Hfresh x Hx Hf).
    + now apply IH.
Qed.

(** ** The sort layer *)

Section SortProperties.

Variable getTime : string -> option Z.

(** [a] may stand before [b] in the result: the comparator is not positive. *)
Let inOrder (order : SortOrder) (a b : TrendItem) : Prop :=
  (compareFn getTime order a b <= 0)%Z.

Lemma sortTrends_Permutation order items :
  sortTrends getTime order items ≡ₚ items.
Proof. apply Array_sort_Permutation. Qed.

Lemma sortTrends_sorted order items :
  StronglySorted (inOrder order) (sortTrends getTime order items).
Proof.
  apply Array_sort_sorted; intros; destruct order; unfold compareFn in *; lia.
Qed.

(** X5. The sort is stable: under both directions, the items that carry a
    given timestamp appear in the result in the order they have in the
    input. *)
Lemma sortTrends_stable order items (t : Z) :
  filter (fun y => timestamp getTime y = t) (sortTrends getTime order items) =
  filter (fun y => timestamp getTime y = t) items.
Proof.
  induction items as [|x items IH]; [reflexivity|].
  unfold sortTrends in *. cbn [Array_sort foldr]. fold (Array_sort (compareFn getTime order) items).
  rewrite filter_sortedInsert.
  - rewrite !(filter_cons _ x), IH. reflexivity.
  - intros y Hx Hy. destruct order; unfold compareFn; lia.
Qed.

Lemma timestamp_unparseable x :
  getTime (pubDate x) = None -> timestamp getTime x = 0%Z.
Proof. unfold timestamp. now intros ->. Qed.

(** The timestamps along the [desc] result fall, along the [asc] result
    rise. *)
Lemma sortTrends_desc_keys items :
  StronglySorted (flip Z.le) (map (timestamp getTime) (sortTrends getTime desc items)).
Proof.
  apply StronglySorted_map.
  eapply StronglySorted_weaken; [|apply (sortTrends_sorted desc)].
  intros a b. unfold inOrder, compareFn, flip. lia.
Qed.

Lemma sortTrends_asc_keys items :
  StronglySorted Z.le (map (timestamp getTime) (sortTrends getTime asc items)).
Proof.
  apply StronglySorted_map.
  eapply StronglySorted_weaken; [|apply (sortTrends_sorted asc)].
  intros a b. unfold inOrder, compareFn. lia.
Qed.

Lemma sortTrends_desc_rev_asc_Permutation items :
  sortTrends getTime desc items ≡ₚ rev (sortTrends getTime asc items).
Proof.
  rewrite <- Permutation_rev, !sortTrends_Permutation. reflexivity.
Qed.

(** C5, as the code has it.  An item whose [pubDate] does not parse is keyed
    0 and placed where an item dated at the epoch goes: in the [desc]
    result no item before it is older than the epoch and no item after it
    is newer, and the other way round in the [asc] result.  When no item of
    the list is dated before the epoch, everything after it under [desc],
    and before it under [asc], is keyed 0 as well: it lies in the oldest
    group. *)
Theorem sortTrends_unparseable_at_epoch order items x :
  x ∈ items ->
  getTime (pubDate x) = None ->
  timestamp getTime x = 0%Z /\
  x ∈ sortTrends getTime order items /\
  forall front back,
    sortTrends getTime order items = front ++ x :: back ->
    match order with
    | desc =>
        Forall (fun y => (0 <= timestamp getTime y)%Z) front /\
        Forall (fun y => (timestamp getTime y <= 0)%Z) back /\
        (Forall (fun y => (0 <= timestamp getTime y)%Z) items ->
         Forall (fun y => timestamp getTime y = 0%Z) back)
    | asc =>
        Forall (fun y => (timestamp getTime y <= 0)%Z) front /\
        Forall (fun y => (0 <= timestamp getTime y)%Z) back /\
        (Forall (fun y => (0 <= timestamp getTime y)%Z) items ->
         Forall (fun y => timestamp getTime y = 0%Z) front)
    end.
Proof.
  intros Hin Hnan. pose proof (timestamp_unparseable x Hnan) as Hx.
  split; [exact Hx|]. split; [now rewrite sortTrends_Permutation|].
  intros front back Hsplit.
  pose proof (sortTrends_sorted order items) as Hsorted.
  pose proof (sortTrends_Permutation order items) as Hperm.
  rewrite Hsplit in Hsorted, Hperm.
  apply StronglySorted_app in Hsorted as (Hcross & _ & Htail).
  apply StronglySorted_cons in Htail as [Hback _].
  assert (Forall (fun y => inOrder order y x) front) as Hfront.
  { apply Forall_forall. intros y Hy. apply Hcross; [exact Hy|]. left. }
  assert (forall P : TrendItem -> Prop, Forall P items -> Forall P front /\ Forall P back)
    as Hsub.
  { intros P HP. rewrite <- Hperm in HP.
    apply Forall_app in HP as [HP1 HP2]. apply Forall_cons in HP2 as [_ HP2]. auto. }
  unfold inOrder, compareFn in Hfront, Hback. rewrite Hx in Hfront, Hback.
  rewrite Forall_forall in Hfront, Hback.
  destruct order; (split; [|split]); try intros Hpos;
    try (destruct (Hsub _ Hpos) as [Hf Hb]; rewrite Forall_forall in Hf, Hb);
    apply Forall_forall; intros y Hy;
    try specialize (Hfront y Hy); try specialize (Hback y Hy);
    try specialize (Hf y Hy); try specialize (Hb y Hy); cbn in *; lia.
Qed.

(** C6. When the timestamps of the items are pairwise distinct, the [desc]
    result is the reverse of the [asc] result.  In general the two hold
    the same items and carry the same timestamp at every position: they
    differ at most in how items with equal timestamps are placed. *)
Theorem sortTrends_desc_reverse_asc items :
  (NoDup (map (timestamp getTime) items) ->
   sortTrends getTime desc items = rev (sortTrends getTime asc items)) /\
  map (timestamp getTime) (sortTrends getTime desc items) =
    rev (map (timestamp getTime) (sortTrends getTime asc items)) /\
  sortTrends getTime desc items ≡ₚ rev (sortTrends getTime asc items).
Proof.
  split; [|split].
  - intros Hnd.
    apply (StronglySorted_unique_strong (inOrder desc)).
    + intros a b Ha Hb Hab Hba.
      apply (NoDup_map_inj_on (timestamp getTime) items); [exact Hnd| | |].
      * now rewrite sortTrends_Permutation in Ha.
      * now rewrite <- Permutation_rev, sortTrends_Permutation in Hb.
      * unfold inOrder, compareFn in Hab, Hba. lia.
    + apply sortTrends_sorted.
    + eapply StronglySorted_weaken; [|apply StronglySorted_rev, (sortTrends_sorted asc)].
      intros a b. unfold inOrder, compareFn, flip. lia.
    + apply sortTrends_desc_rev_asc_Permutation.
  - apply (StronglySorted_unique_strong (flip Z.le)).
    + intros a b _ _. unfold flip. lia.
    + apply sortTrends_desc_keys.
    + apply StronglySorted_rev, sortTrends_asc_keys.
    + rewrite <- map_rev. apply Permutation_map, sortTrends_desc_rev_asc_Permutation.
  - apply sortTrends_desc_rev_asc_Permutation.
Qed.

(** C7. [sortTrends] does not touch its argument: run on a store of arrays
    it allocates a new array for the result, leaves the input array and
    every other array already in the store as they were, and the result
    holds a permutation of the input's items (so the same number of them).
    Its result is a function of the order and the input's contents. *)
Theorem sortTrends_non_mutating order (h : Heap) (items : ref) (elems : list TrendItem) :
  h !! items = Some elems ->
  exists copy h',
    sortTrends_ref getTime order items h = (Fulfilled copy, h') /\
    h !! copy = None /\
    h' !! copy = Some (sortTrends getTime order elems) /\
    h' !! items = Some elems /\
    (forall r, r <> copy -> h' !! r = h !! r) /\
    sortTrends getTime order elems ≡ₚ elems /\
    length (sortTrends getTime order elems) = length elems.
Proof.
  intros Hitems.
  assert (h !! fresh (dom h) = None) as Hfresh.
  { apply not_elem_of_dom, is_fresh. }
  assert (fresh (dom h) <> items) as Hne.
  { intros Heq. rewrite Heq, Hitems in Hfresh. discriminate. }
  exists (fresh (dom h)), (<[fresh (dom h) := sortTrends getTime order elems]> h).
  split; [|split; [|split; [|split; [|split; [|split]]]]].
  - unfold sortTrends_ref, bind, spread, sort_in_place. rewrite Hitems.
    rewrite lookup_insert_eq, insert_insert_eq. reflexivity.
  - exact Hfresh.
  - apply lookup_insert_eq.
  - rewrite lookup_insert_ne; [exact Hitems | exact Hne].
  - intros r Hr. apply lookup_insert_ne. congruence.
  - apply sortTrends_Permutation.
  - apply Permutation_length, sortTrends_Permutation.
Qed.

(** C9. Toggling the sort order twice gives back the state it started from,
    so the sort order and both derived orderings are what they were before
    the first toggle; this holds for every list of items, with distinct
    timestamps or not. *)
Theorem toggleSort_twice st :
  let st2 := snd (toggleSort (snd (toggleSort st))) in
  fst (toggleSort st) = Fulfilled tt /\
  st2 = st /\
  sortOrder st2 = sortOrder st /\
  sortedBdTrends getTime st2 = sortedBdTrends getTime st /\
  sortedUkTrends getTime st2 = sortedUkTrends getTime st.
Proof.
  assert (snd (toggleSort (snd (toggleSort st))) = st) as ->.
  { destruct st as [bd uk lu lo li em [|]]; reflexivity. }
  cbn zeta. repeat split.
Qed.

End SortProperties.

(** * The model at work on concrete inputs *)

Example proxy_urls_BD :
  relayUrls "BD" proxyGenerators =
  [ "https://api.allorigins.win/raw?url=https%3A%2F%2Ftrends.google.com%2Ftrending%2Frss%3Fgeo%3DBD";
    "https://corsproxy.io/?https%3A%2F%2Ftrends.google.com%2Ftrending%2Frss%3Fgeo%3DBD";
    "https://api.codetabs.com/v1/proxy?quest=https%3A%2F%2Ftrends.google.com%2Ftrending%2Frss%3Fgeo%3DBD" ].
Proof. reflexivity. Qed.

Example fetchFeed_second_relay :
  let run := runFetchFeed "BD" (Demo.secondWorks Demo.liveFeed) in
  fst run = Fulfilled Demo.liveFeed /\
  trace (snd run) =
    [ EvFetch "https://api.allorigins.win/raw?url=https%3A%2F%2Ftrends.google.com%2Ftrending%2Frss%3Fgeo%3DBD";
      EvFetch "https://corsproxy.io/?https%3A%2F%2Ftrends.google.com%2Ftrending%2Frss%3Fgeo%3DBD" ].
Proof. split; reflexivity. Qed.

Example fetchFeed_offline_warns :
  omap (fun ev => match ev with EvWarn label _ => Some label | EvFetch _ => None end)
       (trace (snd (runFetchFeed "GB" Demo.allDown))) =
  [ "Proxy attempt failed for GB:"; "Proxy attempt failed for GB:";
    "Proxy attempt failed for GB:" ].
Proof. reflexivity. Qed.

Example sortTrends_desc_titles :
  map title (sortTrends Demo.getTime desc
               [Demo.undated; Demo.preEpoch; Demo.year2024; Demo.year2025]) =
  [ "new year"; "election"; "undated"; "moon race" ].
Proof. reflexivity. Qed.

(** C5 as it was stated fails on a list with a date before the epoch: the
    undated item, keyed 0, is newer than the item of 1960, so it comes first
    under [desc] and last under [asc]. *)
Lemma sortTrends_unparseable_not_oldest :
  Demo.getTime (pubDate Demo.undated) = None /\
  sortTrends Demo.getTime desc [Demo.undated; Demo.preEpoch] = [Demo.undated; Demo.preEpoch] /\
  sortTrends Demo.getTime asc [Demo.undated; Demo.preEpoch] = [Demo.preEpoch; Demo.undated] /\
  ~ (forall (getTime : string -> option Z) (items : list TrendItem) (x : TrendItem),
       x ∈ items ->
       getTime (pubDate x) = None ->
       last (sortTrends getTime desc items) = Some x /\
       head (sortTrends getTime asc items) = Some x).
Proof.
  split; [reflexivity|]. split; [reflexivity|]. split; [reflexivity|].
  intros H.
  destruct (H Demo.getTime [Demo.undated; Demo.preEpoch] Demo.undated) as [Hlast _].
  - left.
  - reflexivity.
  - vm_compute in Hlast. discriminate.
Qed.

Lemma Accepted_liveFeed : Accepted (Demo.okXml Demo.liveFeed) Demo.liveFeed.
Proof.
  exists {| ok := true; text := Fulfilled Demo.liveFeed |}.
  repeat split. left. apply includes_Contains. reflexivity.
Qed.

Lemma not_Accepted_http500 b : ~ Accepted Demo.http500 b.
Proof. intros (r & [= <-] & Hok & _). discriminate. Qed.

Lemma not_Accepted_offline b : ~ Accepted Demo.offline b.
Proof. intros (r & Hr & _). discriminate. Qed.

(** The fallback branch on a dead network. *)
Lemma loadData_fallback_witness :
  (exists e, fst (runFetchFeed "BD" Demo.allDown) = Rejected e) /\
  loadData Demo.parse Demo.bdSample Demo.ukSample
    Demo.allDown (Demo.firstWorks Demo.liveFeed) "10:00:00" initialState =
  (Fulfilled tt,
   {| bdTrends := Demo.parse Demo.bdSample; ukTrends := Demo.parse Demo.ukSample;
      lastUpdated := "10:00:00"; loading := false; isLive := false;
      errorMessage :=
        Some "Live connection failed. Displaying cached data. Please try again later.";
      sortOrder := sortOrder initialState |}).
Proof.
  split.
  - eexists. reflexivity.
  - apply loadData_fallback. left. eexists. reflexivity.
Defined.

(** The second relay is the first accepted one; and a dead network. *)
Lemma fetchFeed_first_accepted_relay_witness :
  (1 < length proxyGenerators /\
   Accepted (Demo.secondWorks Demo.liveFeed 1) Demo.liveFeed /\
   fst (runFetchFeed "BD" (Demo.secondWorks Demo.liveFeed)) = Fulfilled Demo.liveFeed /\
   requests (trace (snd (runFetchFeed "BD" (Demo.secondWorks Demo.liveFeed)))) =
     take 2 (relayUrls "BD" proxyGenerators)) /\
  (fst (runFetchFeed "GB" Demo.allDown) = Rejected (unreachable "GB") /\
   requests (trace (snd (runFetchFeed "GB" Demo.allDown))) =
     relayUrls "GB" proxyGenerators).
Proof.
  split.
  - split; [cbn; lia|]. split; [exact Accepted_liveFeed|].
    apply (proj1 (proj2 (fetchFeed_first_accepted_relay "BD" (Demo.secondWorks Demo.liveFeed)))).
    + cbn. lia.
    + exact Accepted_liveFeed.
    + intros j b Hj. assert (j = 0) as -> by lia. apply not_Accepted_http500.
  - apply (proj1 (proj2 (proj2 (fetchFeed_first_accepted_relay "GB" Demo.allDown)))).
    intros k b _. apply not_Accepted_offline.
Defined.

(** An accepted settlement ends the loop; a server error moves it on. *)
Lemma attempt_accepts_ok_with_marker_witness :
  (Accepted (script (startNet (Demo.firstWorks Demo.liveFeed)) 0) Demo.liveFeed /\
   relayLoop "BD" proxyGenerators (startNet (Demo.firstWorks Demo.liveFeed)) =
   (Fulfilled (Some Demo.liveFeed),
    snd (attempt "BD" (fun url => "https://api.allorigins.win/raw?url=" +:+ encodeURIComponent url)
           (startNet (Demo.firstWorks Demo.liveFeed))))) /\
  fst (attempt "BD" (fun url => "https://corsproxy.io/?" +:+ encodeURIComponent url)
         (startNet (Demo.secondWorks Demo.liveFeed))) = Fulfilled None.
Proof.
  split.
  - split; [exact Accepted_liveFeed|].
    apply (proj1 (proj2 (attempt_accepts_ok_with_marker "BD" _ _ _))).
    exact Accepted_liveFeed.
  - apply (proj1 (proj2 (proj2 (attempt_accepts_ok_with_marker "BD" _ [] _)))).
    intros b. apply not_Accepted_http500.
Defined.

(** An undated item among dated ones, newest first. *)
Lemma sortTrends_unparseable_at_epoch_witness :
  Demo.undated ∈ [Demo.year2024; Demo.undated; Demo.preEpoch; Demo.year2025] /\
  Demo.getTime (pubDate Demo.undated) = None /\
  timestamp Demo.getTime Demo.undated = 0%Z /\
  Forall (fun y => (0 <= timestamp Demo.getTime y)%Z) [Demo.year2025; Demo.year2024] /\
  Forall (fun y => (timestamp Demo.getTime y <= 0)%Z) [Demo.preEpoch].
Proof.
  assert (Demo.undated ∈ [Demo.year2024; Demo.undated; Demo.preEpoch; Demo.year2025]) as Hin.
  { right. left. }
  split; [exact Hin|]. split; [reflexivity|].
  destruct (sortTrends_unparseable_at_epoch Demo.getTime desc _ _ Hin eq_refl)
    as (Hzero & _ & Hsplit).
  split; [exact Hzero|].
  destruct (Hsplit [Demo.year2025; Demo.year2024] [Demo.preEpoch] eq_refl)
    as (Hfront & Hback & _).
  split; [exact Hfront | exact Hback].
Defined.

(** Three items with distinct timestamps. *)
Lemma sortTrends_desc_reverse_asc_witness :
  NoDup (map (timestamp Demo.getTime) [Demo.year2024; Demo.preEpoch; Demo.year2025]) /\
  sortTrends Demo.getTime desc [Demo.year2024; Demo.preEpoch; Demo.year2025] =
  rev (sortTrends Demo.getTime asc [Demo.year2024; Demo.preEpoch; Demo.year2025]).
Proof.
  assert (NoDup (map (timestamp Demo.getTime) [Demo.year2024; Demo.preEpoch; Demo.year2025]))
    as Hnd.
  { vm_compute.
    repeat (apply NoDup_cons; split); try apply NoDup_nil_2;
      rewrite ?not_elem_of_cons; repeat split;
      try apply not_elem_of_nil; discriminate. }
  split; [exact Hnd|].
  exact (proj1 (sortTrends_desc_reverse_asc Demo.getTime _) Hnd).
Defined.

(** Sorting the array at reference 0 of a one-array store. *)
Lemma sortTrends_non_mutating_witness :
  let h : Heap := {[ 0 := [Demo.undated; Demo.year2024] ]} in
  h !! 0 = Some [Demo.undated; Demo.year2024] /\
  exists copy h',
    sortTrends_ref Demo.getTime desc 0 h = (Fulfilled copy, h') /\
    h' !! 0 = Some [Demo.undated; Demo.year2024] /\
    h' !! copy = Some [Demo.year2024; Demo.undated].
Proof.
  cbn zeta.
  assert (({[ 0 := [Demo.undated; Demo.year2024] ]} : Heap) !! 0
          = Some [Demo.undated; Demo.year2024]) as Hlook by apply lookup_singleton_eq.
  split; [exact Hlook|].
  destruct (sortTrends_non_mutating Demo.getTime desc _ _ _ Hlook)
    as (copy & h' & Hrun & _ & Hcopy & Hitems & _).
  exists copy, h'. split; [exact Hrun|]. split; [exact Hitems|exact Hcopy].
Defined.

(** * Further properties of the fetcher *)

Lemma attempt_trace geo generateUrl n :
  trace (snd (attempt geo generateUrl n)) =
  trace n ++ attemptEvents geo (generateUrl (RSS_URL geo)) (script n (sent n)).
Proof.
  unfold attempt, attemptEvents, thrown, try_catch, bind, fetch, await,
    console_warn, modify, ret.
  cbn [snd fst].
  destruct (script n (sent n)) as [[isOk [body|e]]|e]; cbn;
    try destruct isOk; cbn;
    try destruct (includes body "<rss" || includes body "<?xml"); cbn;
    rewrite <- ?app_assoc; reflexivity.
Qed.

(** The two ways a call can go, with what it leaves behind. *)
Lemma runFetchFeed_cases geo sc :
  let run := runFetchFeed geo sc in
  (exists k body,
     k < length proxyGenerators /\
     Accepted (sc k) body /\
     (forall j b, j < k -> ~ Accepted (sc j) b) /\
     fst run = Fulfilled body /\
     sent (snd run) = S k /\
     requests (trace (snd run)) = take (S k) (relayUrls geo proxyGenerators)) \/
  ((forall j b, j < length proxyGenerators -> ~ Accepted (sc j) b) /\
   fst run = Rejected (unreachable geo) /\
   sent (snd run) = length proxyGenerators /\
   requests (trace (snd run)) = relayUrls geo proxyGenerators).
Proof.
  cbn zeta. unfold runFetchFeed. rewrite fetchFeed_run.
  pose proof (relayLoop_run geo proxyGenerators (startNet sc)) as (_ & Hrun).
  cbn zeta in Hrun. cbn [startNet script sent trace requests omap] in Hrun.
  destruct (relayLoop geo proxyGenerators (startNet sc)) as [res n'].
  cbn [fst snd] in *.
  destruct Hrun as [(k & body & Hk & Hacc & Hfirst & -> & Hsent & Hreq)
                   | (Hnone & -> & Hsent & Hreq)]; cbn [fst snd].
  - left. exists k, body. repeat split; assumption.
  - right. repeat split; assumption.
Qed.

Lemma relayLoop_sent geo gens n :
  sent n <= sent (snd (relayLoop geo gens n)) <= sent n + length gens.
Proof.
  pose proof (relayLoop_run geo gens n) as (_ & H). cbn zeta in H.
  destruct H as [(k & body & Hk & _ & _ & _ & Hs & _) | (_ & _ & Hs & _)]; lia.
Qed.

(** The trace of the loop: for each relay asked, in order, what its iteration
    leaves. *)
Lemma relayLoop_trace geo gens : forall n,
  let r := relayLoop geo gens n in
  trace (snd r) =
  trace n ++
  concat (imap (fun i url => attemptEvents geo url (script n (sent n + i)))
               (take (sent (snd r) - sent n) (relayUrls geo gens))).
Proof.
  induction gens as [|g rest IH]; intros n; cbn zeta.
  - cbn. rewrite take_nil. cbn. now rewrite app_nil_r.
  - pose proof (attempt_run geo g n) as (Hsc & Hsent & _ & Hcase).
    pose proof (attempt_trace geo g n) as Htr.
    rewrite relayLoop_cons.
    destruct (attempt geo g n) as [res n1]. cbn [fst snd] in *.
    destruct Hcase as [(body & _ & ->) | (_ & ->)]; cbn [fst snd].
    + rewrite Hsent, Htr. replace (S (sent n) - sent n) with 1 by lia.
      cbn. rewrite Nat.add_0_r, app_nil_r. reflexivity.
    + pose proof (relayLoop_sent geo rest n1) as Hbound.
      rewrite (IH n1), Htr, Hsc, Hsent, <- app_assoc. f_equal.
      rewrite Hsent in Hbound.
      replace (sent (snd (relayLoop geo rest n1)) - sent n)
        with (S (sent (snd (relayLoop geo rest n1)) - S (sent n))) by lia.
      cbn [relayUrls map take]. rewrite imap_cons. cbn [concat].
      rewrite Nat.add_0_r. f_equal. f_equal.
      apply imap_ext. intros i url _. cbn. do 2 f_equal. lia.
Qed.

(** X1. [fetchFeed] resolves only with a validated body: when it resolves,
    the text is the body of an "ok" response that contains ["<rss"] or
    ["<?xml"], it was received from one of the three relays, no earlier relay
    had an accepted response, and no relay after it was asked. *)
Theorem fetchFeed_resolves_only_accepted geo sc body :
  fst (runFetchFeed geo sc) = Fulfilled body ->
  (Contains body "<rss" \/ Contains body "<?xml") /\
  exists k,
    k < length proxyGenerators /\
    Accepted (sc k) body /\
    (forall j b, j < k -> ~ Accepted (sc j) b) /\
    requests (trace (snd (runFetchFeed geo sc))) = take (S k) (relayUrls geo proxyGenerators).
Proof.
  intros Hres.
  destruct (runFetchFeed_cases geo sc)
    as [(k & body0 & Hk & Hacc & Hfirst & Hf & _ & Hreq) | (_ & Hr & _)].
  - rewrite Hres in Hf. injection Hf as <-. split.
    + destruct Hacc as (r & _ & _ & _ & Hmark). exact Hmark.
    + exists k. repeat split; assumption.
  - rewrite Hres in Hr. discriminate.
Qed.

(** X2. A call of [fetchFeed] issues at least one and at most three requests;
    it rejects only after all three, and then with its own error, never with
    the error of a relay. *)
Theorem fetchFeed_request_bounds geo sc :
  let run := runFetchFeed geo sc in
  let asked := length (requests (trace (snd run))) in
  1 <= asked <= 3 /\
  sent (snd run) = asked /\
  match fst run with
  | Fulfilled _ => True
  | Rejected e => asked = 3 /\ e = unreachable geo
  end.
Proof.
  cbn zeta.
  destruct (runFetchFeed_cases geo sc)
    as [(k & body & Hk & _ & _ & -> & -> & ->) | (_ & -> & -> & ->)].
  - rewrite length_take. cbn in *. repeat split; lia.
  - cbn. repeat split; lia.
Qed.

(** X3. The trace of a call is, for each relay asked, in order, its request,
    followed by one warning labelled with the geography exactly when the
    request or the reading of an "ok" response's text threw; a response with
    a status that is not "ok" or a body without the marker is passed over in
    silence. *)
Theorem fetchFeed_trace geo sc :
  let run := runFetchFeed geo sc in
  trace (snd run) =
  concat (imap (fun i url => attemptEvents geo url (sc i))
               (take (sent (snd run)) (relayUrls geo proxyGenerators))).
Proof.
  cbn zeta. unfold runFetchFeed. rewrite fetchFeed_run.
  pose proof (relayLoop_trace geo proxyGenerators (startNet sc)) as Htr.
  cbn zeta in Htr. cbn [startNet script sent trace] in Htr.
  destruct (relayLoop geo proxyGenerators (startNet sc)) as [[[body|]|e] n'];
    cbn [fst snd] in *; rewrite Htr, Nat.sub_0_r; reflexivity.
Qed.

(** A run that resolves at the second relay. *)
Lemma fetchFeed_resolves_only_accepted_witness :
  fst (runFetchFeed "BD" (Demo.secondWorks Demo.liveFeed)) = Fulfilled Demo.liveFeed /\
  (Contains Demo.liveFeed "<rss" \/ Contains Demo.liveFeed "<?xml").
Proof.
  assert (fst (runFetchFeed "BD" (Demo.secondWorks Demo.liveFeed)) = Fulfilled Demo.liveFeed)
    as Hrun by reflexivity.
  split; [exact Hrun|].
  exact (proj1 (fetchFeed_resolves_only_accepted _ _ _ Hrun)).
Defined.

(** * Further properties of the sort layer *)

Lemma StronglySorted_lookup {A} (R : relation A) (l : list A) :
  StronglySorted R l ->
  forall i j x y, i < j -> l !! i = Some x -> l !! j = Some y -> R x y.
Proof.
  induction 1 as [|a l Hl IH Ha]; intros i j x y Hij Hi Hj.
  - rewrite lookup_nil in Hi. discriminate.
  - destruct j as [|j]; [lia|]. cbn in Hj. destruct i as [|i]; cbn in Hi.
    + injection Hi as <-. rewrite Forall_forall in Ha.
      apply Ha. eapply list_elem_of_lookup_2. exact Hj.
    + apply (IH i j); [lia | exact Hi | exact Hj].
Qed.

(** A list that is already in order comes back as it is. *)
Lemma Array_sort_of_sorted {A} (comparefn : A -> A -> Z) (l : list A) :
  StronglySorted (fun a b => (comparefn a b <= 0)%Z) l -> Array_sort comparefn l = l.
Proof.
  induction 1 as [|x l Hl IH Hx]; [reflexivity|].
  cbn [Array_sort foldr]. fold (Array_sort comparefn l). rewrite IH.
  destruct Hx as [|y l Hxy _]; [reflexivity|]. cbn.
  destruct (Z.leb_spec (comparefn x y) 0); [reflexivity | lia].
Qed.

Section MoreSortProperties.

Variable getTime : string -> option Z.

Lemma sortTrends_in_order order items :
  StronglySorted (fun a b => (compareFn getTime order a b <= 0)%Z)
                 (sortTrends getTime order items).
Proof.
  apply Array_sort_sorted; intros; destruct order; unfold compareFn in *; lia.
Qed.

(** X4. The result is in date order: under [desc] no item is newer than an
    item before it, under [asc] no item is older than an item before it. *)
Theorem sortTrends_sorted_by_date order items i j x y :
  i < j ->
  sortTrends getTime order items !! i = Some x ->
  sortTrends getTime order items !! j = Some y ->
  match order with
  | desc => (timestamp getTime y <= timestamp getTime x)%Z
  | asc => (timestamp getTime x <= timestamp getTime y)%Z
  end.
Proof.
  intros Hij Hi Hj.
  pose proof (StronglySorted_lookup _ _ (sortTrends_in_order order items)
                i j x y Hij Hi Hj) as H.
  destruct order; unfold compareFn in H; lia.
Qed.

(** X6. Sorting is idempotent, and more generally a list that is already in
    the requested order is returned as it is. *)
Theorem sortTrends_idempotent order items :
  sortTrends getTime order (sortTrends getTime order items) =
    sortTrends getTime order items /\
  forall sorted,
    StronglySorted (fun a b => (compareFn getTime order a b <= 0)%Z) sorted ->
    sortTrends getTime order sorted = sorted.
Proof.
  split.
  - apply Array_sort_of_sorted, sortTrends_in_order.
  - intros sorted Hsorted. apply Array_sort_of_sorted, Hsorted.
Qed.

(** X7. When all items carry the same timestamp, for instance when no
    [pubDate] parses, both directions return the list in its input order. *)
Theorem sortTrends_all_tied order items (t : Z) :
  Forall (fun y => timestamp getTime y = t) items ->
  sortTrends getTime order items = items.
Proof.
  intros Hall. apply Array_sort_of_sorted.
  induction Hall as [|x items Hx Hall IH]; constructor; [exact IH|].
  eapply Forall_impl; [exact Hall|]. cbn. intros y Hy.
  destruct order; unfold compareFn; lia.
Qed.

(** X8. With pairwise distinct timestamps the result does not depend on the
    order in which the items arrive. *)
Theorem sortTrends_input_order_irrelevant order items1 items2 :
  items1 ≡ₚ items2 ->
  NoDup (map (timestamp getTime) items1) ->
  sortTrends getTime order items1 = sortTrends getTime order items2.
Proof.
  intros Hperm Hnd.
  apply (StronglySorted_unique_strong (fun a b => (compareFn getTime order a b <= 0)%Z)).
  - intros a b Ha Hb Hab Hba.
    apply (NoDup_map_inj_on (timestamp getTime) items1); [exact Hnd| | |].
    + now rewrite sortTrends_Permutation in Ha.
    + now rewrite sortTrends_Permutation, <- Hperm in Hb.
    + destruct order; unfold compareFn in Hab, Hba; lia.
  - apply sortTrends_in_order.
  - apply sortTrends_in_order.
  - now rewrite !sortTrends_Permutation.
Qed.

Lemma sortTrends_toggle_rev order items :
  NoDup (map (timestamp getTime) items) ->
  sortTrends getTime (toggle order) items = rev (sortTrends getTime order items).
Proof.
  intros Hnd.
  apply (StronglySorted_unique_strong
           (fun a b => (compareFn getTime (toggle order) a b <= 0)%Z)).
  - intros a b Ha Hb Hab Hba.
    apply (NoDup_map_inj_on (timestamp getTime) items); [exact Hnd| | |].
    + now rewrite sortTrends_Permutation in Ha.
    + now rewrite <- Permutation_rev, sortTrends_Permutation in Hb.
    + destruct order; unfold compareFn, toggle in Hab, Hba; lia.
  - apply sortTrends_in_order.
  - eapply StronglySorted_weaken; [|apply StronglySorted_rev, (sortTrends_in_order order)].
    intros a b. destruct order; unfold compareFn, toggle, flip; lia.
  - now rewrite <- Permutation_rev, !sortTrends_Permutation.
Qed.

End MoreSortProperties.

(** Newest first: the item at position 0 is not older than the one at 2. *)
Lemma sortTrends_sorted_by_date_witness :
  (timestamp Demo.getTime Demo.undated <= timestamp Demo.getTime Demo.year2025)%Z.
Proof.
  apply (sortTrends_sorted_by_date Demo.getTime desc
           [Demo.undated; Demo.preEpoch; Demo.year2024; Demo.year2025] 0 2);
    [lia | reflexivity | reflexivity].
Defined.

(** A list already ordered oldest first. *)
Lemma sortTrends_idempotent_witness :
  StronglySorted (fun a b => (compareFn Demo.getTime asc a b <= 0)%Z)
                 [Demo.preEpoch; Demo.year2024] /\
  sortTrends Demo.getTime asc [Demo.preEpoch; Demo.year2024] =
    [Demo.preEpoch; Demo.year2024].
Proof.
  assert (StronglySorted (fun a b => (compareFn Demo.getTime asc a b <= 0)%Z)
                         [Demo.preEpoch; Demo.year2024]) as Hs.
  { repeat constructor. vm_compute. discriminate. }
  split; [exact Hs|].
  exact (proj2 (sortTrends_idempotent Demo.getTime asc []) _ Hs).
Defined.

(** An undated item and one dated at the epoch are tied at 0. *)
Lemma sortTrends_all_tied_witness :
  Forall (fun y => timestamp Demo.getTime y = 0%Z) [Demo.undated; Demo.epochDay] /\
  sortTrends Demo.getTime desc [Demo.undated; Demo.epochDay] = [Demo.undated; Demo.epochDay] /\
  sortTrends Demo.getTime asc [Demo.undated; Demo.epochDay] = [Demo.undated; Demo.epochDay].
Proof.
  assert (Forall (fun y => timestamp Demo.getTime y = 0%Z) [Demo.undated; Demo.epochDay])
    as Hall by (repeat constructor).
  split; [exact Hall|]. split.
  - exact (sortTrends_all_tied Demo.getTime desc _ _ Hall).
  - exact (sortTrends_all_tied Demo.getTime asc _ _ Hall).
Defined.

(** The same three items in two arrival orders. *)
Lemma sortTrends_input_order_irrelevant_witness :
  [Demo.year2024; Demo.preEpoch; Demo.year2025] ≡ₚ
    [Demo.year2025; Demo.year2024; Demo.preEpoch] /\
  sortTrends Demo.getTime desc [Demo.year2024; Demo.preEpoch; Demo.year2025] =
  sortTrends Demo.getTime desc [Demo.year2025; Demo.year2024; Demo.preEpoch].
Proof.
  assert ([Demo.year2024; Demo.preEpoch; Demo.year2025] ≡ₚ
            [Demo.year2025; Demo.year2024; Demo.preEpoch]) as Hperm.
  { apply (Permutation_cons_app [Demo.year2025] [Demo.preEpoch]).
    apply (Permutation_cons_app [Demo.year2025] []). reflexivity. }
  split; [exact Hperm|].
  apply sortTrends_input_order_irrelevant; [exact Hperm|].
  vm_compute.
  repeat (apply NoDup_cons; split); try apply NoDup_nil_2;
    rewrite ?not_elem_of_cons; repeat split;
    try apply not_elem_of_nil; discriminate.
Defined.


(** * Further properties of the loader and of the rendered view *)

Section MoreLoaderProperties.

Variable parseTrendsXML : string -> list TrendItem.
Variables BANGLADESH_XML UK_XML : string.
Variable getTime : string -> option Z.



(** X10. [loadData] reports live data only when they were really fetched:
    if it ends with [isLive] true, then for each geography one of the three
    relays answered "ok" with a body that contains the XML marker, no earlier
    relay of that leg was accepted, both bodies parse to non-empty sequences,
    and these parses are the items on display. *)
Theorem loadData_live_provenance legBD legGB now st :
  let st' := snd (loadData parseTrendsXML BANGLADESH_XML UK_XML legBD legGB now st) in
  isLive st' = true ->
  exists kBD kGB bdXml ukXml,
    kBD < 3 /\ Accepted (legBD kBD) bdXml /\ (forall j b, j < kBD -> ~ Accepted (legBD j) b) /\
    kGB < 3 /\ Accepted (legGB kGB) ukXml /\ (forall j b, j < kGB -> ~ Accepted (legGB j) b) /\
    bdTrends st' = parseTrendsXML bdXml /\ bdTrends st' <> [] /\
    ukTrends st' = parseTrendsXML ukXml /\ ukTrends st' <> [].
Proof.
  cbn zeta. rewrite loadData_run. cbn zeta. cbn [snd].
  destruct (Promise_all _ _) as [[bdXml ukXml]|e] eqn:E; [|discriminate].
  apply Promise_all_Fulfilled in E as [Ebd Euk].
  destruct (0 <? length (parseTrendsXML bdXml)) eqn:Nbd;
    destruct (0 <? length (parseTrendsXML ukXml)) eqn:Nuk; cbn; try discriminate.
  intros _. apply nonempty_length in Nbd, Nuk.
  destruct (runFetchFeed_cases "BD" legBD)
    as [(kb & b & Hkb & Hab & Hfb & Hrb & _) | (_ & Hrb & _)];
    rewrite Ebd in Hrb; [injection Hrb as <-|discriminate].
  destruct (runFetchFeed_cases "GB" legGB)
    as [(ku & u & Hku & Hau & Hfu & Hru & _) | (_ & Hru & _)];
    rewrite Euk in Hru; [injection Hru as <-|discriminate].
  exists kb, ku, bdXml, ukXml. cbn in Hkb, Hku. repeat split; assumption.
Qed.

(** X11. What is on screen when an invocation of [loadData] has completed,
    whatever ran while it was suspended.  The refresh button is enabled and
    reads "Refresh", the footer shows the time of the load, and the sort
    order is the one before the load toggled once per press of the sort
    button in between.  Either the status reads "Offline Mode" and the banner
    shows the notice, or it reads "Live Feed"; in that case the banner is
    absent when no other invocation fell back since this one's entry, and
    otherwise it is absent or shows the notice.  Each column holds the items
    of its geography. *)
Theorem render_after_loadData between legBD legGB now st :
  let st' :=
    snd (loadDataAmong parseTrendsXML BANGLADESH_XML UK_XML between legBD legGB now st) in
  let v := render getTime st' in
  refreshDisabled v = false /\
  refreshText v = "Refresh" /\
  footerSynced v = "Last synced: " +:+ now /\
  sortOrder st' = Nat.iter (presses between) toggle (sortOrder st) /\
  ((isLive st' = true /\ statusText v = "Live Feed" /\ footerStatus v = "Live" /\
    (errorBanner v = None \/
     errorBanner v =
       Some "Live connection failed. Displaying cached data. Please try again later.") /\
    (Forall (fun ev => fallsBack parseTrendsXML ev = false) between ->
     errorBanner v = None)) \/
   (isLive st' = false /\ statusText v = "Offline Mode" /\ footerStatus v = "Offline" /\
    errorBanner v =
      Some "Live connection failed. Displaying cached data. Please try again later.")) /\
  bdColumn v ≡ₚ bdTrends st' /\
  ukColumn v ≡ₚ ukTrends st'.
Proof.
  cbn zeta.
  destruct (loadDataAmong_run parseTrendsXML BANGLADESH_XML UK_XML between legBD legGB now st)
    as (settled & _ & -> & Hquiet & Hany & Hsort).
  rewrite loadDataResume_run. cbn zeta. cbn [snd].
  destruct (Promise_all _ _) as [[bdXml ukXml]|e];
    [destruct ((0 <? length (parseTrendsXML bdXml)) && (0 <? length (parseTrendsXML ukXml)))|];
    unfold render; cbn [refreshDisabled refreshText footerSynced
                        statusText footerStatus errorBanner bdColumn ukColumn
                        isLive loading lastUpdated errorMessage sortOrder
                        bdTrends ukTrends];
    (split; [reflexivity|]); (split; [reflexivity|]); (split; [reflexivity|]);
    (split; [exact Hsort|]);
    (split; [|split; apply sortTrends_Permutation]).
  - left. repeat split.
    + destruct Hany as [-> | ->]; cbn; auto.
    + intros Hall. rewrite (Hquiet Hall). reflexivity.
  - right. repeat split.
  - right. repeat split.
Qed.

(** X12. Pressing the sort button changes the text and the title of the
    button and the order of the columns, and nothing else on screen: status,
    banner, refresh button and footer stay as they are, and each column keeps
    its items.  A column whose timestamps are pairwise distinct is exactly
    reversed, whatever the other column holds. *)
Theorem toggleSort_view st :
  let v := render getTime st in
  let v' := render getTime (snd (toggleSort st)) in
  (NoDup (map (timestamp getTime) (bdTrends st)) -> bdColumn v' = rev (bdColumn v)) /\
  (NoDup (map (timestamp getTime) (ukTrends st)) -> ukColumn v' = rev (ukColumn v)) /\
  bdColumn v' ≡ₚ bdColumn v /\
  ukColumn v' ≡ₚ ukColumn v /\
  sortButtonText v' <> sortButtonText v /\
  sortButtonTitle v' <> sortButtonTitle v /\
  statusText v' = statusText v /\ statusTitle v' = statusTitle v /\
  errorBanner v' = errorBanner v /\
  refreshDisabled v' = refreshDisabled v /\ refreshText v' = refreshText v /\
  footerSynced v' = footerSynced v /\ footerStatus v' = footerStatus v.
Proof.
  cbn zeta.
  unfold render, toggleSort, setSortOrder, modify, sortedBdTrends, sortedUkTrends.
  cbn [snd bdColumn ukColumn sortButtonText sortButtonTitle statusText statusTitle
       errorBanner refreshDisabled refreshText footerSynced footerStatus
       bdTrends ukTrends sortOrder isLive loading lastUpdated errorMessage].
  split; [intros Hbd; apply sortTrends_toggle_rev, Hbd|].
  split; [intros Huk; apply sortTrends_toggle_rev, Huk|].
  split; [now rewrite !sortTrends_Permutation|].
  split; [now rewrite !sortTrends_Permutation|].
  split; [destruct (sortOrder st); discriminate|].
  split; [destruct (sortOrder st); discriminate|].
  repeat split.
Qed.

End MoreLoaderProperties.

(** A refresh in which the second relay answers the GB leg. *)
Lemma loadData_live_provenance_witness :
  isLive (snd (loadData Demo.parse Demo.bdSample Demo.ukSample
                 (Demo.firstWorks Demo.liveFeed) (Demo.secondWorks Demo.liveFeed)
                 "10:00:00" initialState)) = true /\
  exists kBD kGB bdXml ukXml,
    kBD < 3 /\ Accepted (Demo.firstWorks Demo.liveFeed kBD) bdXml /\
    kGB < 3 /\ Accepted (Demo.secondWorks Demo.liveFeed kGB) ukXml.
Proof.
  assert (isLive (snd (loadData Demo.parse Demo.bdSample Demo.ukSample
                         (Demo.firstWorks Demo.liveFeed) (Demo.secondWorks Demo.liveFeed)
                         "10:00:00" initialState)) = true) as Hlive by reflexivity.
  split; [exact Hlive|].
  destruct (loadData_live_provenance _ _ _ _ _ _ _ Hlive)
    as (kb & ku & b & u & Hkb & Hab & _ & Hku & Hau & _).
  exists kb, ku, b, u. repeat split; assumption.
Defined.

(** After a load overlapped only by a successful one: no banner. *)
Lemma render_after_loadData_witness :
  Forall (fun ev => fallsBack Demo.parse ev = false) Overlap.quiet /\
  errorBanner
    (render Demo.getTime
       (snd (loadDataAmong Demo.parse Demo.bdSample Demo.ukSample Overlap.quiet
               (Demo.firstWorks Demo.liveFeed) (Demo.firstWorks Demo.liveFeed)
               "10:00:09" initialState))) = None.
Proof.
  assert (Forall (fun ev => fallsBack Demo.parse ev = false) Overlap.quiet) as Hquiet.
  { repeat constructor. }
  split; [exact Hquiet|].
  destruct (render_after_loadData Demo.parse Demo.bdSample Demo.ukSample Demo.getTime
              Overlap.quiet (Demo.firstWorks Demo.liveFeed) (Demo.firstWorks Demo.liveFeed)
              "10:00:09" initialState)
    as (_ & _ & _ & _ & [(_ & _ & _ & _ & Hbanner) | (Hlive & _)] & _).
  - exact (Hbanner Hquiet).
  - discriminate Hlive.
Defined.

(** The Bangladesh column has distinct dates and is reversed, while the
    other column holds a tie. *)
Lemma toggleSort_view_witness :
  NoDup (map (timestamp Demo.getTime) (bdTrends Demo.loadedTied)) /\
  ~ NoDup (map (timestamp Demo.getTime) (ukTrends Demo.loadedTied)) /\
  bdColumn (render Demo.getTime (snd (toggleSort Demo.loadedTied))) =
    rev (bdColumn (render Demo.getTime Demo.loadedTied)).
Proof.
  assert (NoDup (map (timestamp Demo.getTime) (bdTrends Demo.loadedTied))) as Hbd.
  { vm_compute.
    repeat (apply NoDup_cons; split); try apply NoDup_nil_2;
      rewrite ?not_elem_of_cons; repeat split;
      try apply not_elem_of_nil; discriminate. }
  split; [exact Hbd|]. split.
  - vm_compute. intros Hnd. apply NoDup_cons in Hnd as [Hnotin _].
    apply Hnotin. left.
  - exact (proj1 (toggleSort_view Demo.getTime Demo.loadedTied) Hbd).
Defined.





(** * Further properties of the relay URLs *)

Lemma append_cons (c : ascii) (a b : string) : String c a +:+ b = String c (a +:+ b).
Proof. reflexivity. Qed.

Lemma append_cancel_l (p a b : string) : p +:+ a = p +:+ b -> a = b.
Proof.
  induction p as [|c p IH]; [auto|].
  rewrite !append_cons. intros H. injection H as H. exact (IH H).
Qed.

Lemma encodeURIComponent_app (a b : string) :
  encodeURIComponent (a +:+ b) = encodeURIComponent a +:+ encodeURIComponent b.
Proof.
  induction a as [|c a IH]; [reflexivity|].
  rewrite append_cons. cbn [encodeURIComponent].
  rewrite IH. destruct (uriUnreserved c); reflexivity.
Qed.

Lemma encodeURIComponent_unreserved (s : string) :
  Forall (fun c => uriUnreserved c = true) (list_ascii_of_string s) ->
  encodeURIComponent s = s.
Proof.
  induction s as [|c s IH]; cbn [list_ascii_of_string encodeURIComponent]; [reflexivity|].
  intros H. apply Forall_cons in H as [Hc Hs]. rewrite Hc, (IH Hs). reflexivity.
Qed.

Lemma hexDigit_inj (a b : nat) : a < 16 -> b < 16 -> hexDigit a = hexDigit b -> a = b.
Proof.
  unfold hexDigit. intros Ha Hb H. apply (f_equal nat_of_ascii) in H.
  destruct (Nat.ltb_spec a 10), (Nat.ltb_spec b 10);
    rewrite !nat_ascii_embedding in H by lia; lia.
Qed.

Lemma percentEncode_inj (c d : ascii) : percentEncode c = percentEncode d -> c = d.
Proof.
  unfold percentEncode. cbn zeta.
  pose proof (nat_ascii_bounded c) as Hc. pose proof (nat_ascii_bounded d) as Hd.
  pose proof (Nat.div_mod_eq (nat_of_ascii c) 16) as Ec.
  pose proof (Nat.div_mod_eq (nat_of_ascii d) 16) as Ed.
  assert (nat_of_ascii c / 16 < 16) as Hqc by (apply Nat.Div0.div_lt_upper_bound; lia).
  assert (nat_of_ascii d / 16 < 16) as Hqd by (apply Nat.Div0.div_lt_upper_bound; lia).
  assert (nat_of_ascii c mod 16 < 16) as Hrc by (apply Nat.mod_upper_bound; lia).
  assert (nat_of_ascii d mod 16 < 16) as Hrd by (apply Nat.mod_upper_bound; lia).
  remember (nat_of_ascii c / 16) as qc. remember (nat_of_ascii c mod 16) as rc.
  remember (nat_of_ascii d / 16) as qd. remember (nat_of_ascii d mod 16) as rd.
  intros H. injection H as Hhi Hlo.
  apply hexDigit_inj in Hhi; [|assumption..].
  apply hexDigit_inj in Hlo; [|assumption..].
  rewrite <- (ascii_nat_embedding c), <- (ascii_nat_embedding d). f_equal. lia.
Qed.

Lemma percentEncode_append_inj (c d : ascii) (a b : string) :
  percentEncode c +:+ a = percentEncode d +:+ b ->
  percentEncode c = percentEncode d /\ a = b.
Proof.
  unfold percentEncode. cbn zeta.
  generalize (hexDigit (nat_of_ascii c / 16)) (hexDigit (nat_of_ascii c mod 16))
             (hexDigit (nat_of_ascii d / 16)) (hexDigit (nat_of_ascii d mod 16)).
  intros hc lc hd ld. rewrite !append_cons.
  intros H. injection H as -> -> H. split; [reflexivity | exact H].
Qed.

Lemma encodeURIComponent_inj (s1 s2 : string) :
  encodeURIComponent s1 = encodeURIComponent s2 -> s1 = s2.
Proof.
  revert s2. induction s1 as [|c s1 IH]; intros [|d s2]; cbn [encodeURIComponent].
  - reflexivity.
  - destruct (uriUnreserved d); unfold percentEncode; rewrite ?append_cons; discriminate.
  - destruct (uriUnreserved c); unfold percentEncode; rewrite ?append_cons; discriminate.
  - destruct (uriUnreserved c) eqn:Hc, (uriUnreserved d) eqn:Hd.
    + intros H. injection H as -> H. f_equal. exact (IH _ H).
    + unfold percentEncode. rewrite append_cons. intros H. injection H as -> _.
      vm_compute in Hc. discriminate.
    + unfold percentEncode. rewrite append_cons. intros H. injection H as <- _.
      vm_compute in Hd. discriminate.
    + intros H. apply percentEncode_append_inj in H as [Hp Hrest].
      apply percentEncode_inj in Hp as ->. f_equal. exact (IH _ Hrest).
Qed.

(** X13. For a geography code made of letters, digits and the other
    characters [encodeURIComponent] leaves alone, the three relay URLs are
    the three relay prefixes followed by the percent-encoded feed address
    and the code itself. *)
Theorem relayUrls_plain_geo (geo : string) :
  Forall (fun c => uriUnreserved c = true) (list_ascii_of_string geo) ->
  relayUrls geo proxyGenerators =
  [ "https://api.allorigins.win/raw?url=https%3A%2F%2Ftrends.google.com%2Ftrending%2Frss%3Fgeo%3D" +:+ geo;
    "https://corsproxy.io/?https%3A%2F%2Ftrends.google.com%2Ftrending%2Frss%3Fgeo%3D" +:+ geo;
    "https://api.codetabs.com/v1/proxy?quest=https%3A%2F%2Ftrends.google.com%2Ftrending%2Frss%3Fgeo%3D" +:+ geo ].
Proof.
  intros Hgeo. unfold relayUrls, proxyGenerators, RSS_URL. cbn [map].
  rewrite encodeURIComponent_app, (encodeURIComponent_unreserved geo Hgeo).
  reflexivity.
Qed.

(** X14. Requests for different geographies never share a URL: each relay
    generator maps the feed addresses of two different codes to two
    different URLs. *)
Theorem relayUrls_distinct_geos (geo1 geo2 : string) (generateUrl : string -> string) :
  generateUrl ∈ proxyGenerators ->
  geo1 <> geo2 ->
  generateUrl (RSS_URL geo1) <> generateUrl (RSS_URL geo2).
Proof.
  intros Hin Hne Heq. apply Hne.
  assert (encodeURIComponent (RSS_URL geo1) = encodeURIComponent (RSS_URL geo2)) as Henc.
  { unfold proxyGenerators in Hin.
    apply elem_of_cons in Hin as [Hg | Hin].
    { subst generateUrl. cbv beta in Heq. apply append_cancel_l in Heq. exact Heq. }
    apply elem_of_cons in Hin as [Hg | Hin].
    { subst generateUrl. cbv beta in Heq. apply append_cancel_l in Heq. exact Heq. }
    apply elem_of_cons in Hin as [Hg | Hin].
    { subst generateUrl. cbv beta in Heq. apply append_cancel_l in Heq. exact Heq. }
    apply elem_of_nil in Hin. destruct Hin. }
  apply encodeURIComponent_inj in Henc. unfold RSS_URL in Henc.
  apply append_cancel_l in Henc. exact Henc.
Qed.

Lemma relayUrls_plain_geo_witness :
  Forall (fun c => uriUnreserved c = true) (list_ascii_of_string "GB") /\
  relayUrls "GB" proxyGenerators =
  [ "https://api.allorigins.win/raw?url=https%3A%2F%2Ftrends.google.com%2Ftrending%2Frss%3Fgeo%3D" +:+ "GB";
    "https://corsproxy.io/?https%3A%2F%2Ftrends.google.com%2Ftrending%2Frss%3Fgeo%3D" +:+ "GB";
    "https://api.codetabs.com/v1/proxy?quest=https%3A%2F%2Ftrends.google.com%2Ftrending%2Frss%3Fgeo%3D" +:+ "GB" ].
Proof.
  assert (Forall (fun c => uriUnreserved c = true) (list_ascii_of_string "GB")) as Hgeo
    by (repeat constructor).
  split; [exact Hgeo|]. exact (relayUrls_plain_geo "GB" Hgeo).
Defined.

Lemma relayUrls_distinct_geos_witness :
  (fun url => "https://corsproxy.io/?" +:+ encodeURIComponent url) (RSS_URL "BD") <>
  (fun url => "https://corsproxy.io/?" +:+ encodeURIComponent url) (RSS_URL "GB").
Proof.
  apply relayUrls_distinct_geos.
  - right. left.
  - discriminate.
Defined.


(** * The refresh effect *)

(** X15. Mounting starts one load at once and registers one new timer of
    900000 ms (15 minutes) without touching the timers already there; each
    time that timer elapses one more load is started; the cleanup removes
    exactly that timer, so the timer table is again what it was before the
    mount, and a late firing of the removed timer starts nothing. *)
Theorem refreshEffect_cleanup (b : Browser) :
  exists intervalId cleanup mounted,
    refreshEffect b = (Fulfilled cleanup, mounted) /\
    intervals b !! intervalId = None /\
    intervals mounted = <[intervalId := 900000%Z]> (intervals b) /\
    loadsStarted mounted = S (loadsStarted b) /\
    intervalElapses intervalId mounted =
      (Fulfilled tt,
       {| intervals := intervals mounted; loadsStarted := S (loadsStarted mounted) |}) /\
    intervals (snd (cleanup mounted)) = intervals b /\
    loadsStarted (snd (cleanup mounted)) = loadsStarted mounted /\
    intervalElapses intervalId (snd (cleanup mounted)) =
      (Fulfilled tt, snd (cleanup mounted)).
Proof.
  assert (intervals b !! fresh (dom (intervals b)) = None) as Hfresh.
  { apply not_elem_of_dom, is_fresh. }
  exists (fresh (dom (intervals b))), (clearInterval (fresh (dom (intervals b)))).
  eexists. split; [reflexivity|].
  cbn [intervals loadsStarted].
  split; [exact Hfresh|]. split; [reflexivity|]. split; [reflexivity|].
  split.
  { unfold intervalElapses. cbn [intervals]. rewrite lookup_insert_eq. reflexivity. }
  unfold clearInterval, modify. cbn [snd intervals loadsStarted].
  rewrite (delete_insert_id _ _ _ Hfresh).
  split; [reflexivity|]. split; [reflexivity|].
  unfold intervalElapses. cbn [intervals]. rewrite Hfresh. reflexivity.
Qed.
